(** * Turbine placement model (Untitled8.ipynb): relation builders,
      feasibility repair, constraint system and result interpretation.

    Modelling conventions.
    - Coordinates, ranges and distances are IEEE 754 binary64 numbers, as
      in numpy; their arithmetic is the one of [SpecFloat] at precision 53
      and maximal exponent 1024, with rounding to nearest even, overflow to
      infinity, underflow to zero and NaN.  The dot product inside
      [np.linalg.norm] is the rounded sum of the two rounded squares (no
      fused multiply-add).  A range parameter stands for the binary64
      number it is compared as.
    - numpy arrays are lists of rows with entries in [Z]; an index outside
      an array raises in numpy and is [None] here wherever the index is not
      bounded by the loop that produces it.
    - The loops of the notebook are folds over [range] that thread the
      array being filled. *)

From Stdlib Require Import ZArith QArith Lia SpecFloat.
From stdpp Require Import base option list.

Local Open Scope Z_scope.

(** ** Binary64 arithmetic *)

Abbreviation float64 := spec_float.

Definition fadd : float64 → float64 → float64 := SFadd 53 1024.
Definition fsub : float64 → float64 → float64 := SFsub 53 1024.
Definition fmul : float64 → float64 → float64 := SFmul 53 1024.
Definition fsqrt : float64 → float64 := SFsqrt 53 1024.

(** [a <= b] and [a < b]; both are false as soon as one side is NaN. *)
Definition fleb : float64 → float64 → bool := SFleb.
Definition fltb : float64 → float64 → bool := SFltb.

Definition is_nan (x : float64) : bool :=
  match x with S754_nan => true | _ => false end.

(** Neither infinite nor NaN. *)
Definition is_finite (x : float64) : bool :=
  match x with S754_zero _ | S754_finite _ _ _ => true | _ => false end.

(** Not negative: NaN, a zero, or a number of positive sign. *)
Definition not_negative (x : float64) : bool :=
  match x with
  | S754_nan | S754_zero _ => true
  | S754_infinity s | S754_finite s _ _ => negb s
  end.

(** The binary64 number nearest to [m * 2 ^ e]; [F z] is the one nearest to
    the integer [z]. *)
Definition F2 (m e : Z) : float64 := binary_normalize 53 1024 m e false.
Definition F (z : Z) : float64 := F2 z 0.

(** ** Geometry *)

Definition point : Type := float64 * float64.

#[global] Instance point_inhabited : Inhabited point :=
  populate (S754_zero false, S754_zero false).

(** A site or water area at integer coordinates. *)
Definition P (x y : Z) : point := (F x, F y).

(** [a - b] on coordinate pairs. *)
Definition vsub (a b : point) : point := (fsub a.1 b.1, fsub a.2 b.2).

(** [np.linalg.norm v] for a vector of two components: the square root of
    [v.dot(v)]. *)
Definition norm (v : point) : float64 :=
  fsqrt (fadd (fmul v.1 v.1) (fmul v.2 v.2)).

(** [d <= r] for a computed distance [d] and a threshold [r], lines 39
    and 66. *)
Definition dist_le_range (d r : float64) : bool := fleb d r.

(** ** Arrays *)

Abbreviation matrix := (list (list Z)).

(** [np.zeros((r, c))] *)
Definition zeros (r c : nat) : matrix := replicate r (replicate c 0).

(** [m[i, j]] *)
Definition mat_get (m : matrix) (i j : nat) : option Z :=
  row ← m !! i; row !! j.

(** [m[i, j] = v] for indices known to be in range. *)
Definition mat_set (m : matrix) (i j : nat) (v : Z) : matrix :=
  alter (<[j := v]>) i m.

(** [m[i, j] = v], raising on an index out of range. *)
Definition mat_set_checked (m : matrix) (i j : nat) (v : Z) : option matrix :=
  row ← m !! i;
  if decide (j < length row)%nat then Some (mat_set m i j v) else None.

(** [np.sum] of a vector. *)
Definition sumZ (l : list Z) : Z := foldr Z.add 0 l.

(** [np.sum(m[i, :])] *)
Definition row_sum (m : matrix) (i : nat) : option Z := sumZ <$> m !! i.

(** [range(lo, hi)] *)
Definition range (lo hi : nat) : list nat := seq lo (hi - lo).

(** [for i in range(lo, hi): s = body i s] *)
Definition for_range {S : Type} (lo hi : nat) (body : nat → S → S) (s : S) : S :=
  foldl (λ s i, body i s) s (range lo hi).

(** A loop whose body may raise. *)
Fixpoint for_each_opt {A S : Type} (body : A → S → option S) (l : list A) (s : S)
  : option S :=
  match l with
  | [] => Some s
  | a :: l' => s' ← body a s; for_each_opt body l' s'
  end.

(** [np.argmin]: index of the first occurrence of the minimum; a NaN
    counts as minimal and ends the scan; raises on an empty sequence.  The
    scan replaces the running minimum [bd] by [d] unless [d >= bd]. *)
Fixpoint argmin_from (best : nat) (bd : float64) (i : nat) (l : list float64) : nat :=
  match l with
  | [] => best
  | d :: l' =>
      if fleb bd d then argmin_from best bd (S i) l'
      else if is_nan d then i
      else argmin_from i d (S i) l'
  end.

Definition argmin (l : list float64) : option nat :=
  match l with
  | [] => None
  | d :: l' => Some (if is_nan d then 0%nat else argmin_from 0 d 1 l')
  end.

(** ** Relation builders and repair pass *)

Section Builder.
Variables coords_j coords_i : list point.
Variables water_sensor_range comm_link_range : float64.
Variable num_rain_zones : nat.
(** The vector returned by
    [np.random.randint(0, num_rain_zones, num_locations - num_rain_zones)]. *)
Variable remaining_assignments : list nat.

Definition num_locations : nat := length coords_j.
Definition num_water_areas : nat := length coords_i.

(** [np.linalg.norm(coords_i[i] - coords_j[j])] *)
Definition dist_ij (i j : nat) : float64 :=
  norm (vsub (coords_i !!! i) (coords_j !!! j)).

(** [np.linalg.norm(coords_j[j] - coords_j[k])] *)
Definition dist_jk (j k : nat) : float64 :=
  norm (vsub (coords_j !!! j) (coords_j !!! k)).

(** Coverage matrix, lines 35-40. *)
Definition build_S_W : matrix :=
  for_range 0 num_water_areas (λ i S_W,
    for_range 0 num_locations (λ j S_W,
      let distance := dist_ij i j in
      if dist_le_range distance water_sensor_range
      then mat_set S_W i j 1 else S_W) S_W)
    (zeros num_water_areas num_locations).

(** [distances] of line 46. *)
Definition distances (i : nat) : list float64 :=
  (λ j, dist_ij i j) <$> range 0 num_locations.

(** One iteration of the repair loop, lines 43-48. *)
Definition repair_row (i : nat) (S_W : matrix) : option matrix :=
  s ← row_sum S_W i;
  if s =? 0 then
    closest_j ← argmin (distances i);
    mat_set_checked S_W i closest_j 1
  else Some S_W.

(** Feasibility repair pass, lines 42-48. *)
Definition repair (S_W : matrix) : option matrix :=
  for_each_opt repair_row (range 0 num_water_areas) S_W.

(** Rainfall zone matrix, lines 53-58. *)
Definition build_L_Z : option matrix :=
  L_Z ← for_each_opt (λ i L_Z, mat_set_checked L_Z i i 1)
          (range 0 num_rain_zones) (zeros num_rain_zones num_locations);
  for_each_opt (λ '(i, zone_idx) L_Z,
                  mat_set_checked L_Z zone_idx (i + num_rain_zones) 1)
    (imap (λ i zone_idx, (i, zone_idx)) remaining_assignments) L_Z.

(** Connectivity matrix, lines 62-68. *)
Definition build_V : matrix :=
  for_range 0 num_locations (λ j V,
    for_range (j + 1) num_locations (λ k V,
      let distance := dist_jk j k in
      if dist_le_range distance comm_link_range
      then mat_set (mat_set V j k 1) k j 1 else V) V)
    (zeros num_locations num_locations).

End Builder.

(** ** Optimisation model *)

(** A value for every decision variable: [x[j].varValue] and
    [y[(j, k)].varValue]. *)
Record assignment : Type := Assignment {
  xval : nat → Z;
  yval : nat * nat → Z
}.

(** Names of the constraints, as the notebook labels them. *)
Inductive label : Type :=
  | Force_Tree_Network
  | WaterCoverage (i : nat)
  | RainZone (z : nat)
  | LinkActivation (j k : nat)
  | LineOfSight (j k : nat)
  | ConnectivityEnforcement (j : nat).

#[global] Instance label_eq_dec : EqDecision label.
Proof. solve_decision. Defined.

Record constraint : Type := Constraint {
  name : label;
  holds : assignment → bool
}.

(** [pulp.lpSum(f(a) for a in l)] evaluated at an assignment. *)
Definition lpSum {A : Type} (f : A → Z) (l : list A) : Z := sumZ (f <$> l).

(** Entry of a parameter matrix used as a coefficient or bound.  The
    assembler only reads indices below the dimensions the matrix was
    created with; outside of them the value is irrelevant and taken as 0. *)
Definition coef (m : matrix) (i j : nat) : Z := default 0 (mat_get m i j).

(** [cat='Binary'] *)
Definition is_binary (v : Z) : bool := (v =? 0) || (v =? 1).

Section Model.
Variables num_locations num_water_areas num_rain_zones : nat.
Variables S_W L_Z V : matrix.

Definition locations : list nat := range 0 num_locations.

(** [[(j, k) for j in locations for k in locations if j < k]] *)
Definition links : list (nat * nat) :=
  j ← locations; k ← locations;
  if decide (j < k)%nat then [(j, k)] else [].

(** Objective, line 89. *)
Definition objective (a : assignment) : Z := lpSum (xval a) locations.

(** Line 94. *)
Definition c_Force_Tree_Network : constraint :=
  Constraint Force_Tree_Network
    (λ a, lpSum (yval a) links =? lpSum (xval a) locations - 1).

(** Line 99. *)
Definition c_WaterCoverage (i : nat) : constraint :=
  Constraint (WaterCoverage i)
    (λ a, 1 <=? lpSum (λ j, coef S_W i j * xval a j) locations).

(** Line 103. *)
Definition c_RainZone (z : nat) : constraint :=
  Constraint (RainZone z)
    (λ a, 1 <=? lpSum (λ j, coef L_Z z j * xval a j) locations).

(** Line 108. *)
Definition c_LinkActivation (l : nat * nat) : constraint :=
  Constraint (LinkActivation l.1 l.2)
    (λ a, 2 * yval a l <=? xval a l.1 + xval a l.2).

(** Line 110. *)
Definition c_LineOfSight (l : nat * nat) : constraint :=
  Constraint (LineOfSight l.1 l.2)
    (λ a, yval a l <=? coef V l.1 l.2).

(** Lines 115-117. *)
Definition links_to (a : assignment) (j : nat) : Z :=
  lpSum (λ k, yval a (k, j)) (filter (λ k, k < j)%nat locations).
Definition links_from (a : assignment) (j : nat) : Z :=
  lpSum (λ k, yval a (j, k)) (filter (λ k, j < k)%nat locations).
Definition total_links_for (a : assignment) (j : nat) : Z :=
  links_to a j + links_from a j.

(** Line 120. *)
Definition c_ConnectivityEnforcement (j : nat) : constraint :=
  Constraint (ConnectivityEnforcement j)
    (λ a, xval a j <=? total_links_for a j).

(** The constraints in the order the notebook adds them, lines 94-120. *)
Definition constraints : list constraint :=
  [c_Force_Tree_Network]
  ++ (c_WaterCoverage <$> range 0 num_water_areas)
  ++ (c_RainZone <$> range 0 num_rain_zones)
  ++ (links ≫= λ l, [c_LinkActivation l; c_LineOfSight l])
  ++ (c_ConnectivityEnforcement <$> locations).

(** Every declared variable takes the value 0 or 1, lines 82 and 85. *)
Definition binary (a : assignment) : bool :=
  forallb (λ j, is_binary (xval a j)) locations
  && forallb (λ l, is_binary (yval a l)) links.

Definition feasible (a : assignment) : bool :=
  binary a && forallb (λ c, holds c a) constraints.

End Model.

(** ** Solver

    [model.solve()] hands the model to an external MILP solver.  Its
    contract is modelled by exhaustive search: every 0/1 valuation of the
    declared variables is tried, and among the feasible ones the first of
    least objective is returned. *)

Inductive LpStatus : Type := Optimal | Infeasible | Unbounded | Undefined.

#[global] Instance LpStatus_eq_dec : EqDecision LpStatus.
Proof. solve_decision. Defined.

(** All 0/1 valuations of the keys [ks] (0 elsewhere). *)
Fixpoint valuations {K : Type} `{EqDecision K} (ks : list K) : list (K → Z) :=
  match ks with
  | [] => [λ _, 0]
  | k :: ks' =>
      f ← valuations ks';
      [f; λ k', if decide (k' = k) then 1 else f k']
  end.

(** The first element of least objective. *)
Fixpoint first_min {A : Type} (obj : A → Z) (best : A) (l : list A) : A :=
  match l with
  | [] => best
  | a :: l' => first_min obj (if obj a <? obj best then a else best) l'
  end.

Section Solve.
Variables num_locations num_water_areas num_rain_zones : nat.
Variables S_W L_Z V : matrix.

Definition candidates : list assignment :=
  xs ← valuations (locations num_locations);
  ys ← valuations (links num_locations);
  [Assignment xs ys].

Definition solve : LpStatus * option assignment :=
  match filter (λ a, feasible num_locations num_water_areas num_rain_zones
                        S_W L_Z V a = true) candidates with
  | [] => (Infeasible, None)
  | a :: l => (Optimal, Some (first_min (objective num_locations) a l))
  end.
End Solve.

(** ** Result interpreter, lines 135-157 *)

Record report : Type := Report {
  selected_sites : list nat;
  turbine_count : Z;
  final_capex : Z;
  final_opex_annual : Z;
  final_total_cost : Z;
  active_links : list (nat * nat)
}.

Section Interpreter.
Variable num_locations : nat.
Variables C_capex_per_turbine C_opex_per_turbine T : Z.

Definition interpret (status : LpStatus) (sol : option assignment) : option report :=
  match status, sol with
  | Optimal, Some a =>
      let selected_sites :=
        filter (λ j, xval a j = 1) (locations num_locations) in
      let count := Z.of_nat (length selected_sites) in
      let final_capex := count * C_capex_per_turbine in
      let final_opex_annual := count * C_opex_per_turbine in
      let final_total_cost := final_capex + (T * final_opex_annual) in
      let active_links :=
        filter (λ l, yval a l = 1) (links num_locations) in
      Some (Report selected_sites count final_capex final_opex_annual
              final_total_cost active_links)
  | _, _ => None
  end.
End Interpreter.

(** ** The notebook from parameters to report *)

Record outcome : Type := Outcome {
  out_status : LpStatus;
  out_report : option report
}.

Section Pipeline.
Variables coords_j coords_i : list point.
Variables water_sensor_range comm_link_range : float64.
Variable num_rain_zones : nat.
Variable remaining_assignments : list nat.
Variables C_capex_per_turbine C_opex_per_turbine T : Z.

(** The repaired coverage matrix, the zone matrix and the connectivity
    matrix; [None] when one of the loops raises. *)
Definition parameter_matrices : option (matrix * matrix * matrix) :=
  S_W ← repair coords_j coords_i
          (build_S_W coords_j coords_i water_sensor_range);
  L_Z ← build_L_Z coords_j num_rain_zones remaining_assignments;
  Some (S_W, L_Z, build_V coords_j comm_link_range).

Definition run : option outcome :=
  '(S_W, L_Z, V) ← parameter_matrices;
  let '(status, sol) :=
    solve (num_locations coords_j) (num_water_areas coords_i)
      num_rain_zones S_W L_Z V in
  Some (Outcome status
          (interpret (num_locations coords_j) C_capex_per_turbine
             C_opex_per_turbine T status sol)).
End Pipeline.

(** ** Specification vocabulary *)

(** The distance of two points as numpy computes it in lines 38, 46 and
    65: the square root of the sum of the squared coordinate differences,
    every operation rounded to binary64. *)
Definition distance64 (p q : point) : float64 :=
  fsqrt (fadd (fmul (fsub p.1 q.1) (fsub p.1 q.1))
              (fmul (fsub p.2 q.2) (fsub p.2 q.2))).

(** Both coordinates of a point are finite: neither infinite nor NaN. *)
Definition finite_point (p : point) : Prop :=
  is_finite p.1 = true ∧ is_finite p.2 = true.

#[global] Instance finite_point_dec p : Decision (finite_point p).
Proof. unfold finite_point. apply _. Defined.
#[global] Typeclasses Opaque finite_point.

(** Site [k] is within [r] of site [j]: the computed distance of the two
    sites compares [<= r]. *)
Definition within_comm_range (coords_j : list point) (r : float64) (j k : nat) : Prop :=
  fleb (distance64 (coords_j !!! j) (coords_j !!! k)) r = true.

#[global] Instance within_comm_range_dec coords_j r j k :
  Decision (within_comm_range coords_j r j k).
Proof. unfold within_comm_range. apply _. Defined.
#[global] Typeclasses Opaque within_comm_range.

(** Cells [(a, b)], [a < b], which the nested loop of the connectivity
    matrix has visited and found in range when the outer index is [n] and
    the inner index is [kk]. *)
Definition V_visited (coords_j : list point) (r : float64) (n kk a b : nat) : Prop :=
  (a < b)%nat ∧ within_comm_range coords_j r a b
  ∧ ((a < n)%nat ∨ (a = n ∧ (b < kk)%nat)).

#[global] Instance V_visited_dec coords_j r n kk a b :
  Decision (V_visited coords_j r n kk a b).
Proof. unfold V_visited. apply _. Defined.
#[global] Typeclasses Opaque V_visited.

Definition V_cell (coords_j : list point) (r : float64) (n kk a b : nat) : Z :=
  if decide (V_visited coords_j r n kk a b ∨ V_visited coords_j r n kk b a)
  then 1 else 0.

(** Site [j] covers water area [i]: the computed distance of the area and
    the site compares [<= r]. *)
Definition covers (coords_j coords_i : list point) (r : float64) (i j : nat) : Prop :=
  fleb (distance64 (coords_i !!! i) (coords_j !!! j)) r = true.

#[global] Instance covers_dec coords_j coords_i r i j :
  Decision (covers coords_j coords_i r i j).
Proof. unfold covers. apply _. Defined.
#[global] Typeclasses Opaque covers.

(** Cells which the nested loop of the coverage matrix has set when the
    outer index is [n] and the inner index is [kk]. *)
Definition S_W_cell (coords_j coords_i : list point) (r : float64) (n kk i j : nat) : Z :=
  if decide (covers coords_j coords_i r i j ∧ ((i < n)%nat ∨ (i = n ∧ (j < kk)%nat)))
  then 1 else 0.

(** [c] is the site whose computed distance to water area [i] is least,
    the lowest index among the sites at that distance. *)
Definition closest_site (coords_j coords_i : list point) (i c : nat) : Prop :=
  (c < num_locations coords_j)%nat
  ∧ (∀ j, (j < num_locations coords_j)%nat →
          fleb (distance64 (coords_i !!! i) (coords_j !!! c))
               (distance64 (coords_i !!! i) (coords_j !!! j)) = true)
  ∧ (∀ j, (j < c)%nat →
          fltb (distance64 (coords_i !!! i) (coords_j !!! c))
               (distance64 (coords_i !!! i) (coords_j !!! j)) = true).

(** What the repair loop does to one row, lines 43-48. *)
Definition repair_vec (coords_j coords_i : list point) (i : nat) (row : list Z)
  : option (list Z) :=
  if sumZ row =? 0 then
    closest_j ← argmin (distances coords_j coords_i i);
    if decide (closest_j < length row)%nat then Some (<[closest_j := 1]> row)
    else None
  else Some row.

(** The zone a site is given by lines 54-58: site [j < num_rain_zones] is
    seeded to zone [j]; site [j >= num_rain_zones] gets the drawn zone
    [remaining_assignments[j - num_rain_zones]]. *)
Definition zone_of (num_rain_zones : nat) (remaining_assignments : list nat)
    (j : nat) : nat :=
  if decide (j < num_rain_zones)%nat then j
  else default 0%nat (remaining_assignments !! (j - num_rain_zones)%nat).

(** Numbers of rows and of columns of an array. *)
Definition has_shape (r c : nat) (m : matrix) : Prop :=
  length m = r ∧ Forall (λ row, length row = c) m.

(** The rational number a finite binary64 number stands for. *)
Definition exact (x : float64) : Q :=
  match x with
  | S754_finite s m e =>
      ((if s then -1 else 1) * inject_Z (Zpos m) * 2 ^ e)%Q
  | _ => 0%Q
  end.

(** The square of the Euclidean distance of two points with finite
    coordinates, in exact arithmetic. *)
Definition exact_sq_distance (p q : point) : Q :=
  ((exact p.1 - exact q.1) ^ 2 + (exact p.2 - exact q.2) ^ 2)%Q.

(** The deployment of a single turbine at site [s] with no active link. *)
Definition single_site (s : nat) : assignment :=
  Assignment (λ j, if decide (j = s) then 1 else 0) (λ _, 0).

(** Every entry of the array is 0 or 1. *)
Definition binary_matrix (m : matrix) : Prop :=
  Forall (Forall (λ v, v = 0 ∨ v = 1)) m.

(** A turbine at every site and an active link from site 0 to every other
    site. *)
Definition star : assignment :=
  Assignment (λ _, 1) (λ l, if decide (l.1 = 0%nat) then 1 else 0).

(** * Verification *)

(** ** Order of binary64 numbers *)

(** Two finite numbers of the same sign are compared by exponent, then by
    mantissa; the tactic splits on these comparisons. *)
Ltac compare_cases :=
  repeat match goal with
         | |- context [Pos.compare_cont Eq ?a ?b] =>
             change (Pos.compare_cont Eq a b) with (Pos.compare a b)
         | H : context [Pos.compare_cont Eq ?a ?b] |- _ =>
             change (Pos.compare_cont Eq a b) with (Pos.compare a b) in H
         end;
  repeat match goal with
         | H : context [Z.compare ?a ?b] |- _ =>
             destruct (Z.compare_spec a b); simpl in H; try discriminate
         | |- context [Z.compare ?a ?b] =>
             destruct (Z.compare_spec a b); simpl
         | H : context [Pos.compare ?a ?b] |- _ =>
             destruct (Pos.compare_spec a b); simpl in H; try discriminate
         | |- context [Pos.compare ?a ?b] =>
             destruct (Pos.compare_spec a b); simpl
         end;
  try done; try lia.

Lemma fleb_refl (a : float64) : is_nan a = false → fleb a a = true.
Proof.
  destruct a as [[]|[]| |[] m e]; try done;
    intros _; unfold fleb, SFleb; simpl; compare_cases.
Qed.

Lemma fltb_fleb (a b : float64) : fltb a b = true → fleb a b = true.
Proof.
  unfold fltb, fleb, SFltb, SFleb. by destruct (SFcompare a b) as [[]|].
Qed.

Lemma fleb_false_fltb (a b : float64) :
  is_nan a = false → is_nan b = false → fleb a b = false → fltb b a = true.
Proof.
  unfold fltb, fleb, SFltb, SFleb.
  destruct a as [[]|[]| |[] ma ea], b as [[]|[]| |[] mb eb]; try done;
    intros _ _; simpl; compare_cases.
Qed.

Lemma fltb_fleb_false (a b : float64) : fltb a b = true → fleb b a = false.
Proof.
  unfold fltb, fleb, SFltb, SFleb.
  destruct a as [[]|[]| |[] ma ea], b as [[]|[]| |[] mb eb]; try done;
    simpl; compare_cases.
Qed.

Lemma fleb_trans (a b c : float64) :
  fleb a b = true → fleb b c = true → fleb a c = true.
Proof.
  unfold fleb, SFleb.
  destruct a as [[]|[]| |[] ma ea], b as [[]|[]| |[] mb eb],
           c as [[]|[]| |[] mc ec]; try done; simpl; compare_cases.
Qed.

Lemma fltb_fleb_trans (a b c : float64) :
  fltb a b = true → fleb b c = true → fltb a c = true.
Proof.
  unfold fltb, fleb, SFltb, SFleb.
  destruct a as [[]|[]| |[] ma ea], b as [[]|[]| |[] mb eb],
           c as [[]|[]| |[] mc ec]; try done; simpl; compare_cases.
Qed.

(** ** Signs of computed results *)

(** Rounding yields a number of the given sign, or NaN. *)
Lemma binary_round_aux_cases (sx : bool) (mx ex : Z) (lx : location) :
  let x := binary_round_aux 53 1024 sx mx ex lx in
  x = S754_zero sx ∨ x = S754_infinity sx ∨ x = S754_nan
  ∨ ∃ m e, x = S754_finite sx m e.
Proof.
  unfold binary_round_aux.
  destruct (shr_fexp 53 1024 mx ex lx) as [mrs' e'].
  destruct (shr_fexp 53 1024 _ e' loc_Exact) as [mrs'' e''].
  destruct (shr_m mrs'') as [|m|m]; [by left | | by right; right; left].
  destruct (e'' <=? 1024 - 53)%Z;
    [right; right; right; by eexists _, _ | by right; left].
Qed.

Lemma binary_round_aux_opp (sx : bool) (mx ex : Z) (lx : location) :
  binary_round_aux 53 1024 (negb sx) mx ex lx
  = SFopp (binary_round_aux 53 1024 sx mx ex lx).
Proof.
  unfold binary_round_aux.
  destruct (shr_fexp 53 1024 mx ex lx) as [mrs' e'].
  destruct (shr_fexp 53 1024 _ e' loc_Exact) as [mrs'' e''].
  destruct (shr_m mrs'') as [|m|m]; [done | | done].
  by destruct (e'' <=? 1024 - 53)%Z.
Qed.

Lemma binary_normalize_opp (z e : Z) :
  z ≠ 0 →
  binary_normalize 53 1024 (- z) e false
  = SFopp (binary_normalize 53 1024 z e false).
Proof.
  intros Hz. destruct z as [|m|m]; [done | |]; simpl; unfold binary_round;
    destruct (shl_align _ _ _) as [mz ez].
  - apply (binary_round_aux_opp false).
  - apply (binary_round_aux_opp true).
Qed.

Lemma fsqrt_not_negative (x : float64) : not_negative (fsqrt x) = true.
Proof.
  unfold fsqrt, SFsqrt. destruct x as [s|[]| |[] m e]; try done.
  destruct (SFsqrt_core_binary 53 1024 (Z.pos m) e) as [[mz ez] lz].
  destruct (binary_round_aux_cases false mz ez lz)
    as [->|[->|[->|(m' & e' & ->)]]]; done.
Qed.

(** A computed distance is never below a negative threshold. *)
Lemma fleb_fsqrt_negative (x r : float64) :
  fltb r (F 0) = true → fleb (fsqrt x) r = false.
Proof.
  pose proof (fsqrt_not_negative x) as Hnn.
  destruct (fsqrt x) as [[]|[]| |[] m e], r as [[]|[]| |[] mr er]; done.
Qed.

(** ** Symmetry of the computed distance *)

Lemma fsub_swap (a b : float64) :
  fsub b a = SFopp (fsub a b)
  ∨ ∃ s s', fsub a b = S754_zero s ∧ fsub b a = S754_zero s'.
Proof.
  unfold fsub, SFsub.
  destruct a as [[]|[]| |sa ma ea], b as [[]|[]| |sb mb eb]; simpl;
    try (by left); try (by right; eexists _, _);
    try (left; by rewrite negb_involutive).
  rewrite (Z.min_comm eb ea).
  set (A := cond_Zopp sa (Z.pos (shl_align ma ea (Z.min ea eb)).1)).
  set (B := cond_Zopp sb (Z.pos (shl_align mb eb (Z.min ea eb)).1)).
  destruct (decide (A - B = 0)) as [H0|Hne].
  - right. replace (B - A) with 0 by lia. rewrite H0. by eexists _, _.
  - left. replace (B - A) with (- (A - B)) by lia.
    by apply binary_normalize_opp.
Qed.

Lemma fmul_self_swap (d d' : float64) :
  (d' = SFopp d ∨ ∃ s s', d = S754_zero s ∧ d' = S754_zero s') →
  fmul d' d' = fmul d d.
Proof.
  intros [->|(s & s' & -> & ->)].
  - destruct d as [[]|[]| |[] m e]; done.
  - by destruct s, s'.
Qed.

Lemma distance64_sym (p q : point) : distance64 p q = distance64 q p.
Proof.
  unfold distance64.
  by rewrite (fmul_self_swap (fsub q.1 p.1) (fsub p.1 q.1) (fsub_swap _ _)),
             (fmul_self_swap (fsub q.2 p.2) (fsub p.2 q.2) (fsub_swap _ _)).
Qed.
(** ** Finite inputs give no NaN *)

Lemma iter_pos_invariant {A} (f : A → A) (Inv : A → Prop) :
  (∀ x, Inv x → Inv (f x)) → ∀ p x, Inv x → Inv (SpecFloat.iter_pos f p x).
Proof. intros Hf. induction p as [p IH|p IH|]; simpl; auto. Qed.

Lemma shr_1_nonneg (mrs : shr_record) : 0 ≤ shr_m mrs → 0 ≤ shr_m (shr_1 mrs).
Proof. destruct mrs as [[|[p|p|]|[p|p|]] r s]; simpl; lia. Qed.

Lemma shr_fexp_nonneg (m e : Z) (l : location) :
  0 ≤ m → 0 ≤ shr_m (shr_fexp 53 1024 m e l).1.
Proof.
  intros Hm. unfold shr_fexp, shr.
  assert (0 ≤ shr_m (shr_record_of_loc m l)) as H0
    by (by destruct l as [|[]]).
  destruct (_ - e) as [|p|p]; simpl; [done | | done].
  by apply (iter_pos_invariant shr_1 (λ mrs, 0 ≤ shr_m mrs) shr_1_nonneg).
Qed.

Lemma round_nearest_even_nonneg (m : Z) (l : location) :
  0 ≤ m → 0 ≤ round_nearest_even m l.
Proof.
  intros Hm. destruct l as [|[]]; simpl; try lia. destruct (Z.even m); lia.
Qed.

Lemma binary_round_aux_not_nan (sx : bool) (mx ex : Z) (lx : location) :
  0 ≤ mx → is_nan (binary_round_aux 53 1024 sx mx ex lx) = false.
Proof.
  intros Hm. unfold binary_round_aux.
  pose proof (shr_fexp_nonneg mx ex lx Hm) as H1.
  destruct (shr_fexp 53 1024 mx ex lx) as [mrs' e']. simpl in H1.
  pose proof (shr_fexp_nonneg _ e' loc_Exact
    (round_nearest_even_nonneg _ (loc_of_shr_record mrs') H1)) as H2.
  destruct (shr_fexp 53 1024 _ e' loc_Exact) as [mrs'' e'']. simpl in H2.
  destruct (shr_m mrs'') as [|m|m]; [done | | lia].
  by destruct (e'' <=? 1024 - 53)%Z.
Qed.

(** Rounding a number of a given sign yields that sign and no NaN. *)
Lemma binary_round_aux_sign (sx : bool) (mx ex : Z) (lx : location) :
  0 ≤ mx →
  let x := binary_round_aux 53 1024 sx mx ex lx in
  x = S754_zero sx ∨ x = S754_infinity sx ∨ ∃ m e, x = S754_finite sx m e.
Proof.
  intros Hm x. pose proof (binary_round_aux_not_nan sx mx ex lx Hm) as Hn.
  destruct (binary_round_aux_cases sx mx ex lx) as [H|[H|[H|H]]]; auto.
  fold x in H. subst x. by rewrite H in Hn.
Qed.

Lemma binary_normalize_not_nan (m e : Z) (s : bool) :
  is_nan (binary_normalize 53 1024 m e s) = false.
Proof.
  destruct m as [|m|m]; [done | |]; simpl; unfold binary_round;
    destruct (shl_align _ _ _) as [mz ez];
    by apply binary_round_aux_not_nan.
Qed.

Lemma binary_normalize_pos (m e : Z) (s : bool) :
  0 < m → not_negative (binary_normalize 53 1024 m e s) = true.
Proof.
  intros Hm. destruct m as [|m|m]; [lia | | lia]. simpl. unfold binary_round.
  destruct (shl_align _ _ _) as [mz ez].
  by destruct (binary_round_aux_sign false (Z.pos mz) ez loc_Exact)
    as [->|[->|(m' & e' & ->)]].
Qed.

Lemma fsub_finite (a b : float64) :
  is_finite a = true → is_finite b = true → is_nan (fsub a b) = false.
Proof.
  destruct a as [sa|sa| |sa ma ea], b as [sb|sb| |sb mb eb]; try done;
    intros _ _; unfold fsub, SFsub.
  - by destruct sa, sb.
  - apply binary_normalize_not_nan.
Qed.

(** A computed square is no NaN once its argument is none, and is never
    negative. *)
Lemma fmul_self (d : float64) :
  is_nan d = false →
  is_nan (fmul d d) = false ∧ not_negative (fmul d d) = true.
Proof.
  destruct d as [[]|[]| |s m e]; try done; intros _; unfold fmul, SFmul.
  replace (xorb s s) with false by by destruct s.
  by destruct (binary_round_aux_sign false (Z.pos (m * m)) (e + e) loc_Exact)
    as [->|[->|(m' & e' & ->)]].
Qed.

Lemma fadd_not_negative (a b : float64) :
  is_nan a = false → not_negative a = true →
  is_nan b = false → not_negative b = true →
  is_nan (fadd a b) = false ∧ not_negative (fadd a b) = true.
Proof.
  destruct a as [[]|[]| |[] ma ea], b as [[]|[]| |[] mb eb]; try done;
    intros _ _ _ _; unfold fadd, SFadd.
  split; [apply binary_normalize_not_nan|].
  apply binary_normalize_pos. simpl. lia.
Qed.

Lemma fsqrt_not_nan (x : float64) :
  is_nan x = false → not_negative x = true → is_nan (fsqrt x) = false.
Proof.
  destruct x as [[]|[]| |[] m e]; try done; intros _ _. unfold fsqrt, SFsqrt.
  destruct (SFsqrt_core_binary 53 1024 (Z.pos m) e) as [[mz ez] lz] eqn:Hc.
  apply binary_round_aux_not_nan.
  unfold SFsqrt_core_binary in Hc.
  destruct (Z.sqrtrem _) as [q r] eqn:Hq. injection Hc as <- _ _.
  pose proof (Z.sqrtrem_sqrt
    match e - 2 * Z.min (SpecFloat.fexp 53 1024 (Z.div2 (Zdigits2 (Z.pos m) + e + 1))) (Z.div2 e) with
    | 0 => Z.pos m
    | Z.pos _ => Z.shiftl (Z.pos m) (e - 2 * Z.min (SpecFloat.fexp 53 1024 (Z.div2 (Zdigits2 (Z.pos m) + e + 1))) (Z.div2 e))
    | Z.neg _ => 0
    end) as Hs.
  rewrite Hq in Hs. simpl in Hs. rewrite Hs. apply Z.sqrt_nonneg.
Qed.

(** ** The definitions on small inputs *)

Example norm_3_4 : norm (F 3, F 4) = F 5.
Proof. reflexivity. Qed.

(** Rounding: the norm of [(1, 2^-30)] is exactly [1.0]. *)
Example norm_rounds : norm (F 1, F2 1 (-30)) = F 1.
Proof. vm_compute. reflexivity. Qed.

(** Overflow and underflow of the square. *)
Example norm_overflows : norm (F2 1 600, F 0) = S754_infinity false.
Proof. vm_compute. reflexivity. Qed.

Example norm_underflows : norm (F2 1 (-600), F 0) = S754_zero false.
Proof. vm_compute. reflexivity. Qed.

Example distance64_3_4 : distance64 (P 0 0) (P 3 4) = F 5.
Proof. vm_compute. reflexivity. Qed.

Example argmin_first_of_ties :
  argmin (F <$> [3; 1; 2; 1]) = Some 1%nat.
Proof. reflexivity. Qed.

(** The first NaN ends the scan. *)
Example argmin_stops_at_nan :
  argmin [F 3; F 2; S754_nan; F 1] = Some 2%nat.
Proof. reflexivity. Qed.

Example argmin_empty : argmin [] = None.
Proof. reflexivity. Qed.

Example build_S_W_three_sites :
  build_S_W [P 0 0; P 3 4; P 10 0] [P 0 1; P 100 100; P 3 4] (F 2)
  = [[1; 0; 0]; [0; 0; 0]; [0; 1; 0]].
Proof. vm_compute. reflexivity. Qed.

Example repair_three_sites :
  repair [P 0 0; P 3 4; P 10 0] [P 0 1; P 100 100; P 3 4]
    [[1; 0; 0]; [0; 0; 0]; [0; 1; 0]]
  = Some [[1; 0; 0]; [0; 0; 1]; [0; 1; 0]].
Proof. vm_compute. reflexivity. Qed.

Example build_V_three_sites :
  build_V [P 0 0; P 3 4; P 10 0] (F 5) = [[0; 1; 0]; [1; 0; 0]; [0; 0; 0]].
Proof. vm_compute. reflexivity. Qed.

(** The tests of lines 39 and 66 are on the computed distance: rounding
    lets a site at Euclidean distance above the range pass, and a distance
    that overflows to infinity passes for no finite range. *)
Example build_S_W_rounded :
  build_S_W [(F 1, F2 1 (-30)); P 2 0] [P 0 0] (F 1) = [[1; 0]].
Proof. vm_compute. reflexivity. Qed.

Example build_V_overflow :
  build_V [P 0 0; (F2 1 600, F 0)] (F2 1 700) = [[0; 0]; [0; 0]].
Proof. vm_compute. reflexivity. Qed.

Example build_L_Z_three_sites :
  build_L_Z [P 0 0; P 3 4; P 10 0] 2 [1%nat] = Some [[1; 0; 0]; [0; 1; 1]].
Proof. vm_compute. reflexivity. Qed.

Example build_L_Z_zone_out_of_range :
  build_L_Z [P 0 0; P 3 4; P 10 0] 2 [2%nat] = None.
Proof. vm_compute. reflexivity. Qed.

Example links_four_sites :
  links 4 = [(0, 1); (0, 2); (0, 3); (1, 2); (1, 3); (2, 3)]%nat.
Proof. reflexivity. Qed.

(** Two sites in communication range, each covering its own water area,
    one rain zone: two turbines and the link between them. *)
Example run_two_sites :
  run [P 0 0; P 1000 0] [P 0 0; P 1000 0] (F 500) (F 1500) 1 [0%nat]
    800000 1200000 10
  = Some (Outcome Optimal
            (Some (Report [0; 1]%nat 2 1600000 2400000 25600000 [(0, 1)%nat]))).
Proof. vm_compute. reflexivity. Qed.

(** ** Loops *)

Lemma range_snoc (lo hi : nat) :
  (lo ≤ hi)%nat → range lo (S hi) = range lo hi ++ [hi].
Proof.
  intros Hle. unfold range.
  replace (S hi - lo)%nat with (S (hi - lo)) by lia.
  rewrite seq_S. do 2 f_equal. lia.
Qed.

Lemma range_empty (lo hi : nat) : (hi ≤ lo)%nat → range lo hi = [].
Proof. intros Hle. unfold range. by replace (hi - lo)%nat with 0%nat by lia. Qed.

Lemma elem_of_range (lo hi i : nat) : i ∈ range lo hi ↔ (lo ≤ i < hi)%nat.
Proof. unfold range. rewrite elem_of_seq. lia. Qed.

Lemma length_range (lo hi : nat) : length (range lo hi) = (hi - lo)%nat.
Proof. apply length_seq. Qed.

Lemma lookup_range_0 (n i : nat) : (i < n)%nat → range 0 n !! i = Some i.
Proof. intros Hi. unfold range. rewrite lookup_seq_lt; [done | lia]. Qed.

Lemma for_range_step {S : Type} (lo hi : nat) (body : nat → S → S) (s : S) :
  (lo ≤ hi)%nat →
  for_range lo (Datatypes.S hi) body s = body hi (for_range lo hi body s).
Proof.
  intros Hle. unfold for_range. rewrite range_snoc by done.
  by rewrite foldl_app.
Qed.

(** Loop invariant rule: [P i s] holds before iteration [i]. *)
Lemma for_range_inv {S : Type} (P : nat → S → Prop) (lo hi : nat)
    (body : nat → S → S) (s : S) :
  (lo ≤ hi)%nat →
  P lo s →
  (∀ i s', (lo ≤ i < hi)%nat → P i s' → P (Datatypes.S i) (body i s')) →
  P hi (for_range lo hi body s).
Proof.
  intros Hle H0 Hstep. induction hi as [|hi IH].
  - assert (lo = 0%nat) as -> by lia. done.
  - destruct (decide (lo = Datatypes.S hi)) as [->|Hne].
    + unfold for_range. by rewrite range_empty.
    + rewrite for_range_step by lia. apply Hstep; [lia|].
      apply IH; [lia|]. intros i s' Hi. apply Hstep. lia.
Qed.

(** ** Arrays *)

Lemma mat_get_zeros (r c i j : nat) :
  mat_get (zeros r c) i j = if decide (i < r ∧ j < c)%nat then Some 0 else None.
Proof.
  unfold mat_get, zeros.
  destruct (decide (i < r)%nat) as [Hi|Hi].
  - rewrite lookup_replicate_2 by done. simpl.
    destruct (decide (j < c)%nat) as [Hj|Hj].
    + rewrite lookup_replicate_2 by done. by rewrite decide_True.
    + rewrite (proj1 (lookup_replicate_None _ _ _)) by lia.
      by rewrite decide_False by lia.
  - rewrite (proj1 (lookup_replicate_None _ _ _)) by lia.
    by rewrite decide_False by lia.
Qed.

(** Reading after a write: the written cell holds the new value, every
    other cell is unchanged, and the shape is kept. *)
Lemma mat_get_set (m : matrix) (i j a b : nat) (v : Z) :
  mat_get (mat_set m i j v) a b
  = (λ old, if decide (a = i ∧ b = j) then v else old) <$> mat_get m a b.
Proof.
  unfold mat_get, mat_set. rewrite list_lookup_alter.
  destruct (decide (i = a)) as [->|Hia].
  - destruct (m !! a) as [row|]; simpl; [|done].
    rewrite list_lookup_insert.
    destruct (decide (j = b ∧ (j < length row)%nat)) as [[-> Hlt]|Hn].
    + apply lookup_lt_is_Some_2 in Hlt as [old ->]. simpl.
      by rewrite decide_True.
    + destruct (row !! b) as [old|] eqn:Hb; simpl; [|done].
      rewrite decide_False; [done|]. intros [_ ->].
      apply Hn. split; [done|]. by eapply lookup_lt_Some.
  - destruct (m !! a) as [row|]; simpl; [|done].
    destruct (row !! b); simpl; [|done].
    rewrite decide_False; [done|]. intros [-> _]. done.
Qed.

Lemma mat_get_Some_lt (m : matrix) (i j : nat) (v : Z) :
  mat_get m i j = Some v →
  ∃ row, m !! i = Some row ∧ row !! j = Some v.
Proof.
  unfold mat_get. destruct (m !! i) as [row|]; simpl; [|done]. eauto.
Qed.

Lemma mat_set_checked_Some (m : matrix) (i j : nat) (v : Z) :
  is_Some (mat_get m i j) → mat_set_checked m i j v = Some (mat_set m i j v).
Proof.
  intros [old Hold]. apply mat_get_Some_lt in Hold as (row & Hrow & Hj).
  unfold mat_set_checked. rewrite Hrow. simpl.
  rewrite decide_True; [done|]. by eapply lookup_lt_Some.
Qed.

Lemma mat_set_checked_inv (m m' : matrix) (i j : nat) (v : Z) :
  mat_set_checked m i j v = Some m' →
  m' = mat_set m i j v ∧ is_Some (mat_get m i j).
Proof.
  unfold mat_set_checked, mat_get.
  destruct (m !! i) as [row|]; simpl; [|done].
  case_decide as Hj; [|done]. intros [= <-]. split; [done|].
  by apply lookup_lt_is_Some_2.
Qed.

(** ** Connectivity matrix *)

Lemma decide_if_ext {A : Type} (P Q : Prop) `{!Decision P, !Decision Q} (x y : A) :
  (P ↔ Q) → (if decide P then x else y) = (if decide Q then x else y).
Proof. intros HPQ. do 2 case_decide; tauto. Qed.

Section BuildV.
Variable coords_j : list point.
Variable r : float64.
Let N := num_locations coords_j.

Let Inv (n kk : nat) (V : matrix) : Prop :=
  ∀ a b, mat_get V a b
         = if decide (a < N ∧ b < N)%nat
           then Some (V_cell coords_j r n kk a b) else None.

Lemma V_cell_next_row (n a b : nat) :
  (a < N)%nat → (b < N)%nat →
  V_cell coords_j r n N a b = V_cell coords_j r (S n) (S n + 1) a b.
Proof.
  intros Ha Hb. unfold V_cell, V_visited.
  repeat case_decide; try done; exfalso; intuition lia.
Qed.

Lemma build_V_inner (j : nat) (V : matrix) :
  (j < N)%nat → Inv j (j + 1) V →
  Inv j N
    (for_range (j + 1) N (λ k V,
       let distance := dist_jk coords_j j k in
       if dist_le_range distance r
       then mat_set (mat_set V j k 1) k j 1 else V) V).
Proof.
  intros Hj HV.
  apply (for_range_inv (λ k V, Inv j k V)); [lia | done |].
  clear V HV. intros k V Hk HV a b. cbv zeta.
  change (dist_le_range (dist_jk coords_j j k) r)
    with (fleb (distance64 (coords_j !!! j) (coords_j !!! k)) r).
  destruct (fleb (distance64 (coords_j !!! j) (coords_j !!! k)) r) eqn:Hjk.
  - rewrite !mat_get_set, HV.
    destruct (decide (a < N ∧ b < N)%nat) as [Hab|Hab]; [|done]. simpl. f_equal.
    destruct (decide (a = k ∧ b = j)) as [[-> ->]|Hkj].
    { unfold V_cell. rewrite decide_True; [done|]. right.
      unfold V_visited, within_comm_range. split_and!; [lia | done | lia]. }
    destruct (decide (a = j ∧ b = k)) as [[-> ->]|Hjk'].
    { unfold V_cell. rewrite decide_True; [done|]. left.
      unfold V_visited, within_comm_range. split_and!; [lia | done | lia]. }
    unfold V_cell. apply decide_if_ext. unfold V_visited.
    split; (intros [(H1 & H2 & H3)|(H1 & H2 & H3)]; [left|right]);
      (split_and!; [done | done | lia]).
  - rewrite HV.
    destruct (decide (a < N ∧ b < N)%nat) as [Hab|Hab]; [|done]. f_equal.
    unfold V_cell. apply decide_if_ext. unfold V_visited, within_comm_range.
    split; (intros [(H1 & H2 & H3)|(H1 & H2 & H3)]; [left|right]);
      (split_and!; [done | done |]); try lia.
    + destruct (decide (a = j ∧ b = k)) as [[-> ->]|]; [congruence | lia].
    + destruct (decide (b = j ∧ a = k)) as [[-> ->]|]; [congruence | lia].
Qed.

Lemma build_V_inv : Inv N (N + 1) (build_V coords_j r).
Proof.
  unfold build_V. fold N.
  apply (for_range_inv (λ n V, Inv n (n + 1) V)); [lia | |].
  - intros a b. rewrite mat_get_zeros. case_decide; [|done]. f_equal.
    unfold V_cell, V_visited. repeat case_decide; try done; exfalso; intuition lia.
  - intros j V Hj HV.
    pose proof (build_V_inner j V (proj2 Hj) HV) as Hin.
    intros a b. rewrite Hin. case_decide as Hab; [|done]. f_equal.
    apply V_cell_next_row; lia.
Qed.

(** Every cell of the finished matrix. *)
Lemma build_V_get (a b : nat) :
  (a < N)%nat → (b < N)%nat →
  mat_get (build_V coords_j r) a b
  = Some (if decide (((a < b)%nat ∧ within_comm_range coords_j r a b)
                     ∨ ((b < a)%nat ∧ within_comm_range coords_j r b a))
          then 1 else 0).
Proof.
  intros Ha Hb. rewrite build_V_inv. rewrite decide_True by done. f_equal.
  unfold V_cell, V_visited.
  repeat case_decide; try done; exfalso; intuition lia.
Qed.

Lemma build_V_get_None (a b : nat) :
  ¬ (a < N ∧ b < N)%nat → mat_get (build_V coords_j r) a b = None.
Proof. intros Hn. rewrite build_V_inv. by rewrite decide_False. Qed.
End BuildV.

(** ** Coverage matrix *)

Section BuildSW.
Variables coords_j coords_i : list point.
Variable r : float64.
Let N := num_locations coords_j.
Let W := num_water_areas coords_i.

Let Inv (n kk : nat) (S_W : matrix) : Prop :=
  ∀ i j, mat_get S_W i j
         = if decide (i < W ∧ j < N)%nat
           then Some (S_W_cell coords_j coords_i r n kk i j) else None.

Lemma build_S_W_inner (i : nat) (S_W : matrix) :
  Inv i 0 S_W →
  Inv i N
    (for_range 0 N (λ j S_W,
       let distance := dist_ij coords_j coords_i i j in
       if dist_le_range distance r then mat_set S_W i j 1 else S_W) S_W).
Proof.
  intros HS.
  apply (for_range_inv (λ k S_W, Inv i k S_W)); [lia | done |].
  clear S_W HS. intros k S_W Hk HS a b. cbv zeta.
  change (dist_le_range (dist_ij coords_j coords_i i k) r)
    with (fleb (distance64 (coords_i !!! i) (coords_j !!! k)) r).
  destruct (fleb (distance64 (coords_i !!! i) (coords_j !!! k)) r) eqn:Hik.
  - rewrite mat_get_set, HS.
    destruct (decide (a < W ∧ b < N)%nat) as [Hab|Hab]; [|done]. simpl. f_equal.
    destruct (decide (a = i ∧ b = k)) as [[-> ->]|Hne].
    { unfold S_W_cell. rewrite decide_True; [done|].
      unfold covers. split; [done | lia]. }
    unfold S_W_cell. apply decide_if_ext. split; intros [H1 H2]; (split; [done | lia]).
  - rewrite HS.
    destruct (decide (a < W ∧ b < N)%nat) as [Hab|Hab]; [|done]. f_equal.
    unfold S_W_cell. apply decide_if_ext. unfold covers.
    split; intros [H1 H2]; (split; [done |]); try lia.
    destruct (decide (a = i ∧ b = k)) as [[-> ->]|]; [congruence | lia].
Qed.

Lemma build_S_W_inv : Inv W 0 (build_S_W coords_j coords_i r).
Proof.
  unfold build_S_W. fold N W.
  apply (for_range_inv (λ n S_W, Inv n 0 S_W)); [lia | |].
  - intros a b. rewrite mat_get_zeros. case_decide; [|done]. f_equal.
    unfold S_W_cell. rewrite decide_False; [done | lia].
  - intros i S_W Hi HS.
    pose proof (build_S_W_inner i S_W HS) as Hin.
    intros a b. rewrite Hin.
    destruct (decide (a < W ∧ b < N)%nat) as [Hab|Hab]; [|done]. f_equal.
    unfold S_W_cell. apply decide_if_ext. split; intros [H1 H2]; (split; [done | lia]).
Qed.

(** Every cell of the coverage matrix before repair. *)
Lemma build_S_W_get (i j : nat) :
  mat_get (build_S_W coords_j coords_i r) i j
  = if decide (i < W ∧ j < N)%nat
    then Some (if decide (covers coords_j coords_i r i j) then 1 else 0)
    else None.
Proof.
  rewrite build_S_W_inv.
  destruct (decide (i < W ∧ j < N)%nat) as [Hab|Hab]; [|done]. f_equal.
  unfold S_W_cell. apply decide_if_ext. split; [tauto | intros; split; [done | lia]].
Qed.
End BuildSW.

(** ** Distances and [argmin] *)

(** Finite coordinates give a computed distance that is no NaN. *)
Lemma distance64_not_nan (p q : point) :
  finite_point p → finite_point q → is_nan (distance64 p q) = false.
Proof.
  intros [Hp1 Hp2] [Hq1 Hq2]. unfold distance64.
  destruct (fmul_self _ (fsub_finite _ _ Hp1 Hq1)) as [Hn1 Hs1].
  destruct (fmul_self _ (fsub_finite _ _ Hp2 Hq2)) as [Hn2 Hs2].
  destruct (fadd_not_negative _ _ Hn1 Hs1 Hn2 Hs2) as [Hn Hs].
  by apply fsqrt_not_nan.
Qed.

Lemma finite_point_lookup (l : list point) (i : nat) :
  Forall finite_point l → finite_point (l !!! i).
Proof.
  intros Hl. destruct (l !! i) as [p|] eqn:Hi.
  - rewrite (list_lookup_total_correct _ _ _ Hi).
    by eapply Forall_lookup_1.
  - rewrite list_lookup_total_alt, Hi. done.
Qed.

(** The running minimum: [bd] at index [best] is least among the
    elements already seen and strictly below everything before [best]. *)
Lemma argmin_from_spec (l pre : list float64) (best : nat) (bd : float64) :
  (∀ j d, (pre ++ l) !! j = Some d → is_nan d = false) →
  pre !! best = Some bd →
  (∀ j d, pre !! j = Some d → fleb bd d = true) →
  (∀ j d, (j < best)%nat → pre !! j = Some d → fltb bd d = true) →
  let c := argmin_from best bd (length pre) l in
  ∃ dc, (pre ++ l) !! c = Some dc
        ∧ (∀ j d, (pre ++ l) !! j = Some d → fleb dc d = true)
        ∧ (∀ j d, (j < c)%nat → (pre ++ l) !! j = Some d → fltb dc d = true).
Proof.
  revert pre best bd.
  induction l as [|d l IH]; intros pre best bd Hnan Hbest Hmin Hfirst.
  - simpl. rewrite app_nil_r. eauto.
  - simpl.
    assert (is_nan d = false) as Hd.
    { apply (Hnan (length pre)). by rewrite list_lookup_middle. }
    assert (is_nan bd = false) as Hbd.
    { apply (Hnan best). rewrite lookup_app_l; [done | by eapply lookup_lt_Some]. }
    revert Hnan.
    replace (pre ++ d :: l) with ((pre ++ [d]) ++ l) by by rewrite <- app_assoc.
    replace (S (length pre)) with (length (pre ++ [d]))
      by (rewrite length_app; simpl; lia).
    intros Hnan.
    destruct (fleb bd d) eqn:Hle.
    + apply IH; [done | | |].
      * rewrite lookup_app_l; [done | by eapply lookup_lt_Some].
      * intros j x Hj. apply lookup_app_Some in Hj as [Hj|[_ Hj]].
        -- by eapply Hmin.
        -- destruct (j - length pre)%nat; simpl in Hj; [|done].
           by injection Hj as <-.
      * intros j x Hlen Hj. apply (Hfirst j x Hlen).
        rewrite lookup_app_l in Hj; [done|].
        apply lookup_lt_Some in Hbest. lia.
    + rewrite Hd.
      pose proof (fleb_false_fltb _ _ Hbd Hd Hle) as Hlt.
      apply IH; [done | | |].
      * rewrite lookup_app_r by lia. by rewrite Nat.sub_diag.
      * intros j x Hj. apply lookup_app_Some in Hj as [Hj|[_ Hj]].
        -- apply fltb_fleb. eapply fltb_fleb_trans; [done | by eapply Hmin].
        -- destruct (j - length pre)%nat; simpl in Hj; [|done].
           injection Hj as <-. by apply fleb_refl.
      * intros j x Hlen Hj. rewrite lookup_app_l in Hj by done.
        eapply fltb_fleb_trans; [done | by eapply Hmin].
Qed.

Lemma argmin_spec (l : list float64) (c : nat) :
  (∀ j d, l !! j = Some d → is_nan d = false) →
  argmin l = Some c →
  ∃ dc, l !! c = Some dc
        ∧ (∀ j d, l !! j = Some d → fleb dc d = true)
        ∧ (∀ j d, (j < c)%nat → l !! j = Some d → fltb dc d = true).
Proof.
  destruct l as [|d l]; [done|]. simpl. intros Hnan [= <-].
  assert (is_nan d = false) as Hd by apply (Hnan 0%nat d eq_refl).
  rewrite Hd.
  apply (argmin_from_spec l [d] 0 d).
  - done.
  - done.
  - intros [|j] x Hj; simpl in Hj; [|done]. injection Hj as <-.
    by apply fleb_refl.
  - intros j x Hj. lia.
Qed.

Lemma argmin_from_lt (l : list float64) (best : nat) (bd : float64) (i : nat) :
  (best < i)%nat → (argmin_from best bd i l < i + length l)%nat.
Proof.
  revert best bd i. induction l as [|d l IH]; intros best bd i Hb; simpl.
  - lia.
  - destruct (fleb bd d).
    + specialize (IH best bd (S i)). lia.
    + destruct (is_nan d); [lia|]. specialize (IH i d (S i)). lia.
Qed.

(** The index [np.argmin] returns lies in the sequence, NaN or not. *)
Lemma argmin_lt (l : list float64) (c : nat) :
  argmin l = Some c → (c < length l)%nat.
Proof.
  destruct l as [|d l]; [done|]. simpl. intros [= <-].
  destruct (is_nan d); [lia|].
  pose proof (argmin_from_lt l 0 d 1). lia.
Qed.

Lemma argmin_is_Some (l : list float64) : l ≠ [] → is_Some (argmin l).
Proof. destruct l; [done|]. simpl. eauto. Qed.

Section Closest.
Variables coords_j coords_i : list point.
Let N := num_locations coords_j.

Lemma distances_lookup (i j : nat) :
  distances coords_j coords_i i !! j
  = if decide (j < N)%nat
    then Some (distance64 (coords_i !!! i) (coords_j !!! j)) else None.
Proof.
  unfold distances. rewrite list_lookup_fmap. case_decide as Hj.
  - by rewrite lookup_range_0.
  - unfold range. rewrite lookup_seq_ge; [done | fold N; lia].
Qed.

Lemma length_distances (i : nat) : length (distances coords_j coords_i i) = N.
Proof. unfold distances. rewrite length_fmap, length_range. fold N. lia. Qed.

Lemma argmin_distances_lt (i c : nat) :
  argmin (distances coords_j coords_i i) = Some c → (c < N)%nat.
Proof. intros Hc. apply argmin_lt in Hc. by rewrite length_distances in Hc. Qed.

(** With finite coordinates [np.argmin] returns the site at the least
    computed distance, the first of them. *)
Lemma argmin_distances_closest (i c : nat) :
  Forall finite_point coords_j → Forall finite_point coords_i →
  argmin (distances coords_j coords_i i) = Some c →
  closest_site coords_j coords_i i c.
Proof.
  intros Hfj Hfi Hc. apply argmin_spec in Hc as (dc & Hdc & Hmin & Hfirst).
  - rewrite distances_lookup in Hdc. case_decide as HcN; [|done].
    injection Hdc as <-. split_and!.
    + done.
    + intros j Hj. apply (Hmin j). rewrite distances_lookup.
      by rewrite decide_True.
    + intros j Hj. apply (Hfirst j); [done|].
      rewrite distances_lookup. rewrite decide_True; [done | fold N; lia].
  - intros j d. rewrite distances_lookup. case_decide; [|done].
    intros [= <-]. apply distance64_not_nan; by apply finite_point_lookup.
Qed.

Lemma argmin_distances_Some (i : nat) :
  (0 < N)%nat → ∃ c, argmin (distances coords_j coords_i i) = Some c.
Proof.
  intros HN. apply argmin_is_Some. unfold distances, range. fold N.
  destruct N; [lia|]. done.
Qed.

Lemma argmin_distances_None (i : nat) :
  N = 0%nat → argmin (distances coords_j coords_i i) = None.
Proof. intros HN. unfold distances, range. fold N. by rewrite HN. Qed.

(** The nearest site is unique. *)
Lemma closest_site_unique (i c c' : nat) :
  closest_site coords_j coords_i i c → closest_site coords_j coords_i i c' →
  c = c'.
Proof.
  intros (Hc & Hmin & Hfirst) (Hc' & Hmin' & Hfirst').
  destruct (Nat.lt_trichotomy c c') as [Hlt|[->|Hlt]]; [|done|].
  - specialize (Hfirst' c Hlt). specialize (Hmin c' Hc').
    apply fltb_fleb_false in Hfirst'. congruence.
  - specialize (Hfirst c' Hlt). specialize (Hmin' c Hc).
    apply fltb_fleb_false in Hfirst. congruence.
Qed.
End Closest.

(** ** Loops that may raise *)

Lemma for_each_opt_app {A S : Type} (body : A → S → option S) (l1 l2 : list A) (s : S) :
  for_each_opt body (l1 ++ l2) s
  = s' ← for_each_opt body l1 s; for_each_opt body l2 s'.
Proof.
  revert s. induction l1 as [|a l1 IH]; intros s; simpl.
  - done.
  - destruct (body a s) as [s1|]; simpl; [apply IH | done].
Qed.

Lemma for_each_opt_range_step {S : Type} (body : nat → S → option S) (n : nat) (s : S) :
  for_each_opt body (range 0 (Datatypes.S n)) s
  = s' ← for_each_opt body (range 0 n) s; body n s'.
Proof.
  rewrite range_snoc by lia. rewrite for_each_opt_app.
  destruct (for_each_opt body (range 0 n) s) as [s1|]; simpl; [|done].
  by destruct (body n s1).
Qed.

(** A loop over the rows of an array in which iteration [i] replaces row
    [i] by [f i] of it. *)
Section RowLoop.
Variable f : nat → list Z → option (list Z).

Let body (i : nat) (m : matrix) : option matrix :=
  row ← m !! i; row' ← f i row; Some (<[i := row']> m).

Lemma row_loop_inv (n : nat) (m m' : matrix) :
  for_each_opt body (range 0 n) m = Some m' →
  length m' = length m
  ∧ (∀ i, (n ≤ i)%nat → m' !! i = m !! i)
  ∧ (∀ i, (i < n)%nat →
          ∃ row row', m !! i = Some row ∧ f i row = Some row'
                      ∧ m' !! i = Some row').
Proof.
  revert m'. induction n as [|n IH]; intros m'.
  - simpl. intros [= <-]. split_and!; [done | done | lia].
  - rewrite for_each_opt_range_step.
    destruct (for_each_opt body (range 0 n) m) as [m1|]; simpl; [|done].
    destruct (IH m1 eq_refl) as (Hlen & Hge & Hlt).
    unfold body. destruct (m1 !! n) as [row|] eqn:Hrow; simpl; [|done].
    destruct (f n row) as [row'|] eqn:Hf; simpl; [|done].
    intros [= <-]. split_and!.
    + by rewrite length_insert.
    + intros i Hi. rewrite list_lookup_insert_ne by lia. apply Hge. lia.
    + intros i Hi. destruct (decide (i = n)) as [->|Hne].
      * exists row, row'. split_and!; [|done|].
        -- by rewrite <- Hge.
        -- apply list_lookup_insert_eq. by eapply lookup_lt_Some.
      * destruct (Hlt i) as (r0 & r1 & H0 & H1 & H2); [lia|].
        exists r0, r1. by rewrite list_lookup_insert_ne.
Qed.

Lemma row_loop_total (n : nat) (m : matrix) :
  (∀ i, (i < n)%nat → ∃ row, m !! i = Some row ∧ is_Some (f i row)) →
  is_Some (for_each_opt body (range 0 n) m).
Proof.
  induction n as [|n IH]; intros Hrows.
  - by eexists.
  - rewrite for_each_opt_range_step.
    destruct IH as [m1 Hm1]; [intros i Hi; apply Hrows; lia|].
    rewrite Hm1. simpl.
    destruct (row_loop_inv n m m1 Hm1) as (_ & Hge & _).
    destruct (Hrows n) as (row & Hrow & [row' Hf]); [lia|].
    unfold body. rewrite Hge, Hrow by done. simpl. rewrite Hf. by eexists.
Qed.

(** Rows that [f] leaves alone make the whole loop a no-op. *)
Lemma row_loop_fixed (n : nat) (m : matrix) :
  (∀ i, (i < n)%nat → ∃ row, m !! i = Some row ∧ f i row = Some row) →
  for_each_opt body (range 0 n) m = Some m.
Proof.
  induction n as [|n IH]; intros Hrows.
  - done.
  - rewrite for_each_opt_range_step.
    rewrite IH by (intros i Hi; apply Hrows; lia). simpl.
    destruct (Hrows n) as (row & Hrow & Hf); [lia|].
    unfold body. rewrite Hrow. simpl. rewrite Hf. simpl.
    by rewrite list_insert_id.
Qed.
End RowLoop.

(** ** Feasibility repair pass *)

Section Repair.
Variables coords_j coords_i : list point.
Let N := num_locations coords_j.
Let W := num_water_areas coords_i.

Lemma repair_row_vec (i : nat) (S_W : matrix) :
  repair_row coords_j coords_i i S_W
  = row ← S_W !! i; row' ← repair_vec coords_j coords_i i row;
    Some (<[i := row']> S_W).
Proof.
  unfold repair_row, repair_vec, row_sum, mat_set_checked, mat_set.
  destruct (S_W !! i) as [row|] eqn:Hrow; simpl; [|done].
  destruct (sumZ row =? 0); simpl.
  - destruct (argmin (distances coords_j coords_i i)) as [c|]; simpl; [|done].
    case_decide; simpl; [|done]. f_equal.
    apply list_eq. intros k. rewrite list_lookup_alter, list_lookup_insert.
    destruct (decide (i = k)) as [<-|Hne].
    + rewrite Hrow. simpl. rewrite decide_True; [done|].
      split; [done | by eapply lookup_lt_Some].
    + rewrite decide_False; [done | tauto].
  - by rewrite list_insert_id.
Qed.

Lemma repair_rows (S_W : matrix) :
  repair coords_j coords_i S_W
  = for_each_opt
      (λ i m, row ← m !! i; row' ← repair_vec coords_j coords_i i row;
              Some (<[i := row']> m))
      (range 0 W) S_W.
Proof.
  unfold repair. fold W. generalize (range 0 W). intros l. revert S_W.
  induction l as [|i l IH]; intros S_W; simpl; [done|].
  rewrite repair_row_vec.
  destruct (S_W !! i) as [row|]; simpl; [|done].
  destruct (repair_vec coords_j coords_i i row); simpl; [apply IH | done].
Qed.

(** Repairing a repaired row changes nothing. *)
Lemma repair_vec_idem (i : nat) (row row' : list Z) :
  repair_vec coords_j coords_i i row = Some row' →
  repair_vec coords_j coords_i i row' = Some row'.
Proof.
  unfold repair_vec. destruct (sumZ row =? 0) eqn:Hsum.
  - destruct (argmin (distances coords_j coords_i i)) as [c|]; simpl; [|done].
    case_decide as Hc; [|done]. intros [= <-].
    destruct (sumZ (<[c:=1]> row) =? 0); [|done]. simpl.
    rewrite decide_True by by rewrite length_insert.
    by rewrite list_insert_insert_eq.
  - intros [= <-]. by rewrite Hsum.
Qed.

Lemma repair_inv (S_W S_W' : matrix) :
  repair coords_j coords_i S_W = Some S_W' →
  length S_W' = length S_W
  ∧ (∀ i, (W ≤ i)%nat → S_W' !! i = S_W !! i)
  ∧ (∀ i, (i < W)%nat →
          ∃ row row', S_W !! i = Some row
                      ∧ repair_vec coords_j coords_i i row = Some row'
                      ∧ S_W' !! i = Some row').
Proof. rewrite repair_rows. apply row_loop_inv. Qed.

Lemma repair_fixed (S_W S_W' : matrix) :
  repair coords_j coords_i S_W = Some S_W' →
  repair coords_j coords_i S_W' = Some S_W'.
Proof.
  intros Hrep. apply repair_inv in Hrep as (_ & _ & Hrows).
  rewrite repair_rows. apply row_loop_fixed. intros i Hi.
  destruct (Hrows i Hi) as (row & row' & _ & Hvec & Hrow').
  exists row'. split; [done|]. by eapply repair_vec_idem.
Qed.
End Repair.

(** C4.  The repair pass is idempotent: on every matrix, running it twice
    gives what running it once gives (the same repaired matrix, or the same
    failure when the first run raises). *)
Theorem repair_idempotent (coords_j coords_i : list point) (S_W : matrix) :
  repair coords_j coords_i S_W ≫= repair coords_j coords_i
  = repair coords_j coords_i S_W.
Proof.
  destruct (repair coords_j coords_i S_W) as [S_W'|] eqn:Hrep; simpl; [|done].
  by eapply repair_fixed.
Qed.

(** ** Shapes and sums *)

Lemma zeros_shape (r c : nat) : has_shape r c (zeros r c).
Proof.
  unfold zeros. split; [apply length_replicate|].
  apply Forall_replicate. apply length_replicate.
Qed.

Lemma mat_set_shape (r c i j : nat) (v : Z) (m : matrix) :
  has_shape r c m → has_shape r c (mat_set m i j v).
Proof.
  intros [Hr Hc]. unfold mat_set. split; [by rewrite length_alter|].
  apply Forall_lookup. intros k row. rewrite list_lookup_alter.
  rewrite Forall_lookup in Hc. case_decide as Hik.
  - subst k. destruct (m !! i) as [row0|] eqn:Hrow; simpl; [|done].
    intros [= <-]. rewrite length_insert. by eapply Hc.
  - apply Hc.
Qed.

Lemma has_shape_row (r c i : nat) (m : matrix) :
  has_shape r c m → (i < r)%nat → ∃ row, m !! i = Some row ∧ length row = c.
Proof.
  intros [Hr Hc] Hi. destruct (lookup_lt_is_Some_2 m i) as [row Hrow]; [lia|].
  exists row. split; [done|]. rewrite Forall_lookup in Hc. by eapply Hc.
Qed.

Lemma sumZ_nonneg (l : list Z) : Forall (λ v, 0 ≤ v) l → 0 ≤ sumZ l.
Proof. induction 1; simpl; lia. Qed.

Lemma sumZ_lookup_le (l : list Z) (j : nat) (v : Z) :
  Forall (λ v, 0 ≤ v) l → l !! j = Some v → v ≤ sumZ l.
Proof.
  intros Hl. revert j. induction Hl as [|x l Hx Hl IH]; intros j; [done|].
  destruct j as [|j]; simpl.
  - intros [= ->]. pose proof (sumZ_nonneg l Hl). lia.
  - intros Hj. specialize (IH j Hj). lia.
Qed.

Lemma sumZ_zero_iff (l : list Z) :
  Forall (λ v, 0 ≤ v) l → sumZ l = 0 ↔ Forall (λ v, v = 0) l.
Proof.
  induction 1 as [|x l Hx Hl IH]; simpl.
  - split; [constructor | done].
  - pose proof (sumZ_nonneg l Hl). rewrite Forall_cons. rewrite <- IH. lia.
Qed.

Section RepairSpec.
Variables coords_j coords_i : list point.
Variable r : float64.
Let N := num_locations coords_j.
Let W := num_water_areas coords_i.

Lemma build_S_W_shape : has_shape W N (build_S_W coords_j coords_i r).
Proof.
  unfold build_S_W. fold N W.
  apply (for_range_inv (λ _ m, has_shape W N m)); [lia | apply zeros_shape |].
  intros i m _ Hm.
  apply (for_range_inv (λ _ m, has_shape W N m)); [lia | done |].
  intros j m' _ Hm'. cbv zeta.
  destruct (dist_le_range _ _); [by apply mat_set_shape | done].
Qed.

(** Row [i] of the coverage matrix before repair. *)
Lemma build_S_W_row (i : nat) :
  (i < W)%nat →
  ∃ row, build_S_W coords_j coords_i r !! i = Some row
         ∧ length row = N
         ∧ ∀ j, (j < N)%nat →
                row !! j = Some (if decide (covers coords_j coords_i r i j)
                                 then 1 else 0).
Proof.
  intros Hi.
  destruct (has_shape_row W N i _ build_S_W_shape Hi) as (row & Hrow & Hlen).
  exists row. split_and!; [done | done |]. intros j Hj.
  pose proof (build_S_W_get coords_j coords_i r i j) as Hget.
  unfold mat_get in Hget. rewrite Hrow in Hget. simpl in Hget.
  rewrite Hget. by rewrite decide_True.
Qed.

Lemma build_S_W_row_01 (i : nat) (row : list Z) :
  build_S_W coords_j coords_i r !! i = Some row →
  Forall (λ v, v = 0 ∨ v = 1) row.
Proof.
  intros Hrow. assert (i < W)%nat as Hi.
  { apply lookup_lt_Some in Hrow. by rewrite (proj1 build_S_W_shape) in Hrow. }
  destruct (build_S_W_row i Hi) as (row' & Hrow' & Hlen & Hcells).
  rewrite Hrow in Hrow'. injection Hrow' as <-.
  apply Forall_lookup. intros j v Hj.
  rewrite Hcells in Hj by (rewrite <- Hlen; by eapply lookup_lt_Some).
  injection Hj as <-. case_decide; auto.
Qed.
End RepairSpec.

(** C3 (amended).  With at least one candidate site and finite
    coordinates the repair pass succeeds on the coverage matrix built from
    the coordinates; it changes exactly the rows that are entirely zero,
    setting in each of them the entry of the site whose distance to the
    water area, as computed in binary64, is least (lowest index among the
    sites at that computed distance) to 1; afterwards every water-area row
    has an entry equal to 1 and row sum at least 1. *)
Theorem repair_pass_spec (coords_j coords_i : list point) (water_sensor_range : float64) :
  (0 < num_locations coords_j)%nat →
  Forall finite_point coords_j → Forall finite_point coords_i →
  let S_W0 := build_S_W coords_j coords_i water_sensor_range in
  ∃ S_W, repair coords_j coords_i S_W0 = Some S_W
    ∧ length S_W = num_water_areas coords_i
    ∧ ∀ i, (i < num_water_areas coords_i)%nat →
        ∃ row0 row, S_W0 !! i = Some row0 ∧ S_W !! i = Some row
          ∧ (Forall (λ v, v = 0) row0 →
               ∃ c, closest_site coords_j coords_i i c
                    ∧ row = <[c := 1]> row0 ∧ row ≠ row0)
          ∧ (¬ Forall (λ v, v = 0) row0 → row = row0)
          ∧ (∃ j, (j < num_locations coords_j)%nat ∧ row !! j = Some 1)
          ∧ 1 ≤ sumZ row.
Proof.
  intros HN Hfj Hfi S_W0.
  set (N := num_locations coords_j) in *. set (W := num_water_areas coords_i).
  (* what the pass does to each row of the built matrix *)
  assert (∀ i, (i < W)%nat →
            ∃ row0 row, S_W0 !! i = Some row0
              ∧ repair_vec coords_j coords_i i row0 = Some row
              ∧ (Forall (λ v, v = 0) row0 →
                   ∃ c, closest_site coords_j coords_i i c
                        ∧ row = <[c := 1]> row0 ∧ row ≠ row0)
              ∧ (¬ Forall (λ v, v = 0) row0 → row = row0)
              ∧ (∃ j, (j < N)%nat ∧ row !! j = Some 1)
              ∧ 1 ≤ sumZ row) as Hrows.
  { intros i Hi.
    destruct (build_S_W_row coords_j coords_i water_sensor_range i Hi)
      as (row0 & Hrow0 & Hlen & Hcells). fold N in Hlen, Hcells.
    pose proof (build_S_W_row_01 _ _ _ _ _ Hrow0) as H01.
    assert (Forall (λ v, 0 ≤ v) row0) as Hnn.
    { eapply Forall_impl; [exact H01|]. simpl. lia. }
    exists row0. unfold repair_vec.
    destruct (sumZ row0 =? 0) eqn:Hsum.
    - apply Z.eqb_eq, sumZ_zero_iff in Hsum; [|done].
      destruct (argmin_distances_Some coords_j coords_i i HN) as [c Hc].
      pose proof (argmin_distances_closest _ _ i c Hfj Hfi Hc) as Hclosest.
      assert (c < length row0)%nat as Hclen by (rewrite Hlen; apply Hclosest).
      rewrite Hc. simpl. rewrite decide_True by done.
      assert (<[c:=1]> row0 !! c = Some 1) as Hone
        by by apply list_lookup_insert_eq.
      exists (<[c:=1]> row0). split_and!; [done | done | | done | |].
      + intros _. exists c. split_and!; [done | done |].
        intros Heq. rewrite Heq in Hone.
        rewrite Forall_lookup in Hsum. by specialize (Hsum c 1 Hone).
      + exists c. split; [apply Hclosest | done].
      + apply (sumZ_lookup_le _ c); [|done].
        apply Forall_insert; [done | lia].
    - apply Z.eqb_neq in Hsum.
      assert (¬ Forall (λ v, v = 0) row0) as Hnz
        by by rewrite <- sumZ_zero_iff.
      exists row0. split_and!; [done | done | done | done | |].
      + apply not_Forall_Exists in Hnz; [|apply _].
        apply Exists_exists in Hnz as (v & Hv & Hv0).
        apply list_elem_of_lookup in Hv as [j Hj].
        exists j. split; [rewrite <- Hlen; by eapply lookup_lt_Some|].
        rewrite Forall_lookup in H01. destruct (H01 j v Hj); [done | by subst].
      + pose proof (sumZ_nonneg row0 Hnn). lia. }
  destruct (row_loop_total (repair_vec coords_j coords_i) W S_W0) as [S_W HS].
  { intros i Hi. destruct (Hrows i Hi) as (row0 & row & H0 & Hv & _). eauto. }
  rewrite <- repair_rows in HS. exists S_W. split; [done|].
  destruct (repair_inv _ _ _ _ HS) as (Hlen & _ & Hafter).
  split. { rewrite Hlen. apply build_S_W_shape. }
  intros i Hi. destruct (Hrows i Hi) as (row0 & row & H0 & Hv & Hspec).
  destruct (Hafter i Hi) as (row0' & row' & H0' & Hv' & Hrow').
  fold S_W0 in H0'. rewrite H0 in H0'. injection H0' as <-.
  rewrite Hv in Hv'. injection Hv' as <-.
  exists row0, row. split; [done|]. split; [done|]. exact Hspec.
Qed.

Lemma repair_pass_spec_witness :
  (0 < num_locations [P 0 0; P 3 4])%nat
  ∧ Forall finite_point [P 0 0; P 3 4] ∧ Forall finite_point [P 0 1; P 9 9]
  ∧ ∃ S_W, repair [P 0 0; P 3 4] [P 0 1; P 9 9]
             (build_S_W [P 0 0; P 3 4] [P 0 1; P 9 9] (F 2)) = Some S_W
           ∧ length S_W = 2%nat.
Proof.
  assert (Forall finite_point [P 0 0; P 3 4]) as Hj by (by repeat constructor).
  assert (Forall finite_point [P 0 1; P 9 9]) as Hi by (by repeat constructor).
  split_and!; [simpl; lia | exact Hj | exact Hi |].
  destruct (repair_pass_spec [P 0 0; P 3 4] [P 0 1; P 9 9] (F 2))
    as (S_W & HS & Hlen & _).
  - simpl. lia.
  - exact Hj.
  - exact Hi.
  - exists S_W. split; [exact HS | exact Hlen].
Defined.

(** C3, as stated, fails in two ways.  The site the pass sets is the one
    nearest by the distance numpy computes, which is rounded: for the sites
    [(1, 2^-30)] and [(1, 0)] and the water area [(0, 0)] both computed
    distances are [1.0], so the pass sets the entry of site 0, while site 1
    is strictly nearer in exact arithmetic.  And without candidate sites
    [np.argmin] raises on the empty list of distances, so that no row can
    receive a true entry. *)
Lemma repair_pass_rounded_and_no_sites :
  (let coords_j := [(F 1, F2 1 (-30)); (F 1, F 0)] in
   let coords_i := [P 0 0] in
   build_S_W coords_j coords_i (F2 1 (-1)) = [[0; 0]]
   ∧ repair coords_j coords_i (build_S_W coords_j coords_i (F2 1 (-1)))
     = Some [[1; 0]]
   ∧ distance64 (coords_i !!! 0%nat) (coords_j !!! 0%nat) = F 1
   ∧ distance64 (coords_i !!! 0%nat) (coords_j !!! 1%nat) = F 1
   ∧ (exact_sq_distance (coords_i !!! 0%nat) (coords_j !!! 1%nat)
      < exact_sq_distance (coords_i !!! 0%nat) (coords_j !!! 0%nat))%Q)
  ∧ ¬ ∃ S_W, repair [] [P 0 0] (build_S_W [] [P 0 0] (F 500)) = Some S_W
             ∧ ∀ i, (i < 1)%nat →
                    ∃ row j, S_W !! i = Some row ∧ row !! j = Some 1.
Proof.
  split.
  - split_and!; vm_compute; reflexivity.
  - intros (S_W & Hrep & _). vm_compute in Hrep. discriminate.
Qed.

(** ** Symmetry of the distance between two sites *)

Lemma within_comm_range_sym (coords_j : list point) (r : float64) (j k : nat) :
  within_comm_range coords_j r j k ↔ within_comm_range coords_j r k j.
Proof. unfold within_comm_range. by rewrite distance64_sym. Qed.

(** C9 (amended).  The connectivity matrix is symmetric with a zero
    diagonal, and its entry for two sites is 1 exactly when the sites are
    different and their distance as computed in binary64 (every operation
    rounded) compares at most the communication range. *)
Theorem adjacency_spec (coords_j : list point) (comm_link_range : float64) (j k : nat) :
  (j < num_locations coords_j)%nat →
  (k < num_locations coords_j)%nat →
  let V := build_V coords_j comm_link_range in
  mat_get V j k = mat_get V k j
  ∧ mat_get V j j = Some 0
  ∧ mat_get V j k
    = Some (if decide (j ≠ k
                       ∧ fleb (distance64 (coords_j !!! j) (coords_j !!! k))
                              comm_link_range = true)
            then 1 else 0).
Proof.
  intros Hj Hk V. unfold V. rewrite !build_V_get by done. split_and!.
  - f_equal. apply decide_if_ext. tauto.
  - f_equal. rewrite decide_False; [done | lia].
  - f_equal. apply decide_if_ext.
    rewrite (within_comm_range_sym coords_j comm_link_range k j).
    unfold within_comm_range.
    split; [intros [[? ?]|[? ?]]; split; [lia | done | lia | done]|].
    intros [Hne Hw]. destruct (Nat.lt_trichotomy j k) as [?|[?|?]]; [tauto | done | tauto].
Qed.

Lemma adjacency_spec_witness :
  let coords_j := [P 0 0; P 3 4; P 10 0] in
  (0 < num_locations coords_j)%nat ∧ (1 < num_locations coords_j)%nat
  ∧ mat_get (build_V coords_j (F 5)) 0 1 = mat_get (build_V coords_j (F 5)) 1 0
  ∧ mat_get (build_V coords_j (F 5)) 0 0 = Some 0
  ∧ mat_get (build_V coords_j (F 5)) 0 1
    = Some (if decide (0%nat ≠ 1%nat
                       ∧ fleb (distance64 (coords_j !!! 0%nat) (coords_j !!! 1%nat))
                              (F 5) = true)
            then 1 else 0).
Proof.
  intros coords_j. split; [simpl; lia|]. split; [simpl; lia|].
  apply (adjacency_spec coords_j (F 5) 0 1); simpl; lia.
Defined.

(** C9, as stated, fails: the test of line 66 is on the rounded distance.
    The sites [(0, 0)] and [(1, 2^-30)] are at Euclidean distance above 1,
    yet the computed distance is [1.0] and with range 1 the matrix has
    entry 1 for them. *)
Lemma adjacency_rounded_distance :
  let coords_j := [P 0 0; (F 1, F2 1 (-30))] in
  mat_get (build_V coords_j (F 1)) 0 1 = Some 1
  ∧ (exact (F 1) == 1)%Q
  ∧ (exact (F 1) ^ 2 < exact_sq_distance (coords_j !!! 0%nat) (coords_j !!! 1%nat))%Q.
Proof. split_and!; vm_compute; reflexivity. Qed.

(** ** Rainfall zone matrix *)

(** Invariant rule for a loop that may raise: if every iteration succeeds
    and re-establishes the invariant, so does the loop. *)
Lemma for_each_opt_inv {A S : Type} (P : nat → S → Prop)
    (body : A → S → option S) (l : list A) (s : S) :
  P 0%nat s →
  (∀ i a s0, l !! i = Some a → P i s0 →
             ∃ s1, body a s0 = Some s1 ∧ P (Datatypes.S i) s1) →
  ∃ s', for_each_opt body l s = Some s' ∧ P (length l) s'.
Proof.
  induction l as [|a l IH] using rev_ind; intros H0 Hstep.
  - exists s. done.
  - destruct IH as (s1 & Hs1 & HP1); [done | |].
    { intros i b s0 Hb. apply Hstep. rewrite lookup_app_l; [done|].
      by eapply lookup_lt_Some. }
    destruct (Hstep (length l) a s1) as (s2 & Hs2 & HP2); [|done|].
    { rewrite lookup_app_r by lia. by rewrite Nat.sub_diag. }
    exists s2. rewrite for_each_opt_app, Hs1. simpl. rewrite Hs2.
    split; [done|]. rewrite length_app. simpl.
    by replace (length l + 1)%nat with (Datatypes.S (length l)) by lia.
Qed.

Section BuildLZ.
Variable coords_j : list point.
Variable num_rain_zones : nat.
Variable remaining_assignments : list nat.
Let N := num_locations coords_j.
Let Z' := num_rain_zones.

Hypothesis zones_le_sites : (Z' ≤ N)%nat.
Hypothesis remaining_length : length remaining_assignments = (N - Z')%nat.
Hypothesis remaining_lt : Forall (λ z, (z < Z')%nat) remaining_assignments.

(** Cells after [i] iterations of the seeding loop. *)
Let Seeded (i : nat) (L_Z : matrix) : Prop :=
  has_shape Z' N L_Z
  ∧ ∀ z j, mat_get L_Z z j
           = if decide (z < Z' ∧ j < N)%nat
             then Some (if decide (z = j ∧ (j < i)%nat) then 1 else 0)
             else None.

(** Cells after [i] iterations of the assignment loop. *)
Let Assigned (i : nat) (L_Z : matrix) : Prop :=
  has_shape Z' N L_Z
  ∧ ∀ z j, mat_get L_Z z j
           = if decide (z < Z' ∧ j < N)%nat
             then Some (if decide ((j < Z' + i)%nat
                                   ∧ z = zone_of Z' remaining_assignments j)
                        then 1 else 0)
             else None.

Lemma build_L_Z_seed :
  ∃ L_Z, for_each_opt (λ i L_Z, mat_set_checked L_Z i i 1)
           (range 0 Z') (zeros Z' N) = Some L_Z
         ∧ Seeded Z' L_Z.
Proof.
  destruct (for_each_opt_inv Seeded (λ i L_Z, mat_set_checked L_Z i i 1)
              (range 0 Z') (zeros Z' N)) as (L_Z & HL & HP).
  - split; [apply zeros_shape|]. intros z j. rewrite mat_get_zeros.
    case_decide; [|done]. rewrite decide_False; [done | lia].
  - intros i a L_Z Ha [Hshape Hcells].
    assert (a = i ∧ (i < Z')%nat) as [-> Hi].
    { unfold range in Ha. apply lookup_seq in Ha. lia. }
    exists (mat_set L_Z i i 1). split.
    + apply mat_set_checked_Some. rewrite Hcells.
      rewrite decide_True by lia. by eexists.
    + split; [by apply mat_set_shape|]. intros z j.
      rewrite mat_get_set, Hcells.
      destruct (decide (z < Z' ∧ j < N)%nat); [|done]. simpl. f_equal.
      destruct (decide (z = i ∧ j = i)) as [[-> ->]|Hne].
      * rewrite decide_True; [done | lia].
      * apply decide_if_ext. lia.
  - exists L_Z. by rewrite length_range, Nat.sub_0_r in HP.
Qed.

Lemma build_L_Z_cells :
  ∃ L_Z, build_L_Z coords_j num_rain_zones remaining_assignments = Some L_Z
         ∧ has_shape Z' N L_Z
         ∧ ∀ z j, mat_get L_Z z j
                  = if decide (z < Z' ∧ j < N)%nat
                    then Some (if decide (z = zone_of Z' remaining_assignments j)
                               then 1 else 0)
                    else None.
Proof.
  destruct build_L_Z_seed as (L0 & HL0 & Hshape0 & Hcells0).
  unfold build_L_Z. fold N Z'. rewrite HL0. simpl.
  destruct (for_each_opt_inv Assigned
              (λ '(i, zone_idx) L_Z, mat_set_checked L_Z zone_idx (i + Z') 1)
              (imap (λ i zone_idx, (i, zone_idx)) remaining_assignments) L0)
    as (L_Z & HL & Hshape & Hcells).
  - split; [done|]. intros z j. rewrite Hcells0.
    destruct (decide (z < Z' ∧ j < N)%nat); [|done]. f_equal.
    apply decide_if_ext. unfold zone_of. case_decide; lia.
  - intros i [i' zone_idx] L_Z Ha [Hshape Hcells].
    rewrite list_lookup_imap in Ha.
    destruct (remaining_assignments !! i) as [zi|] eqn:Hzi; [|done].
    simpl in Ha. injection Ha as <- <-.
    assert (i < N - Z')%nat as Hi
      by (rewrite <- remaining_length; by eapply lookup_lt_Some).
    assert (zi < Z')%nat as Hz
      by (rewrite Forall_lookup in remaining_lt; by eapply remaining_lt).
    exists (mat_set L_Z zi (i + Z') 1). split.
    + apply mat_set_checked_Some. rewrite Hcells.
      rewrite decide_True by lia. by eexists.
    + split; [by apply mat_set_shape|]. intros z j.
      rewrite mat_get_set, Hcells.
      destruct (decide (z < Z' ∧ j < N)%nat); [|done]. simpl. f_equal.
      assert (zone_of Z' remaining_assignments (i + Z') = zi) as Hzone.
      { unfold zone_of. rewrite decide_False by lia.
        replace (i + Z' - Z')%nat with i by lia. by rewrite Hzi. }
      destruct (decide (z = zi ∧ j = (i + Z')%nat)) as [[-> ->]|Hne].
      * rewrite decide_True; [done|]. split; [lia | done].
      * apply decide_if_ext. split; [intros [? ?]; split; [lia | done]|].
        intros [Hj ->]. split; [|done].
        destruct (decide (j = (i + Z')%nat)) as [->|]; [|lia].
        exfalso. apply Hne. by rewrite Hzone.
  - exists L_Z. split; [done|]. split; [done|]. intros z j. rewrite Hcells.
    destruct (decide (z < Z' ∧ j < N)%nat) as [[Hz Hj]|]; [|done]. f_equal.
    apply decide_if_ext. rewrite length_imap, remaining_length.
    split; [tauto | intros; split; [lia | done]].
Qed.

Lemma zone_of_lt (j : nat) :
  (j < N)%nat → (zone_of Z' remaining_assignments j < Z')%nat.
Proof.
  intros Hj. unfold zone_of. case_decide as Hjz; [done|].
  destruct (lookup_lt_is_Some_2 remaining_assignments (j - Z')) as [z Hz];
    [lia|].
  rewrite Hz. simpl. rewrite Forall_lookup in remaining_lt.
  by eapply remaining_lt.
Qed.
End BuildLZ.

(** C8.  When the drawn vector has the length and range [np.random.randint]
    gives it and there are at least as many sites as zones, the zone matrix
    is built; site [j < num_rain_zones] is in zone [j], a later site is in
    the zone drawn for it, which is below [num_rain_zones]; every site is in
    exactly one zone, and every zone row sums to at least 1. *)
Theorem zone_assignment_spec (coords_j : list point) (num_rain_zones : nat)
    (remaining_assignments : list nat) :
  (num_rain_zones ≤ num_locations coords_j)%nat →
  length remaining_assignments = (num_locations coords_j - num_rain_zones)%nat →
  Forall (λ z, (z < num_rain_zones)%nat) remaining_assignments →
  ∃ L_Z, build_L_Z coords_j num_rain_zones remaining_assignments = Some L_Z
    ∧ has_shape num_rain_zones (num_locations coords_j) L_Z
    ∧ (∀ j, (j < num_rain_zones)%nat → mat_get L_Z j j = Some 1)
    ∧ (∀ j, (j < num_locations coords_j)%nat →
         ∃ z, (z < num_rain_zones)%nat
              ∧ ((j < num_rain_zones)%nat → z = j)
              ∧ ((num_rain_zones ≤ j)%nat →
                 remaining_assignments !! (j - num_rain_zones)%nat = Some z)
              ∧ ∀ z', (z' < num_rain_zones)%nat →
                      mat_get L_Z z' j = Some (if decide (z' = z) then 1 else 0))
    ∧ (∀ z, (z < num_rain_zones)%nat →
         ∃ row, L_Z !! z = Some row ∧ 1 ≤ sumZ row).
Proof.
  intros Hle Hlen Hlt.
  destruct (build_L_Z_cells coords_j num_rain_zones remaining_assignments
              Hle Hlen Hlt) as (L_Z & HL & Hshape & Hcells).
  exists L_Z. split_and!; [done | done | | |].
  - intros j Hj. rewrite Hcells. rewrite decide_True by lia. f_equal.
    rewrite decide_True; [done|]. unfold zone_of. by rewrite decide_True.
  - intros j Hj. exists (zone_of num_rain_zones remaining_assignments j).
    split_and!.
    + by eapply zone_of_lt.
    + intros Hjz. unfold zone_of. by rewrite decide_True.
    + intros Hjz. unfold zone_of. rewrite decide_False by lia.
      destruct (lookup_lt_is_Some_2 remaining_assignments (j - num_rain_zones))
        as [z Hz]; [lia|]. by rewrite Hz.
    + intros z' Hz'. rewrite Hcells. by rewrite decide_True.
  - intros z Hz.
    destruct (has_shape_row _ _ z L_Z Hshape Hz) as (row & Hrow & Hrowlen).
    exists row. split; [done|].
    assert (∀ j, row !! j = mat_get L_Z z j) as Hget.
    { intros j. unfold mat_get. by rewrite Hrow. }
    apply (sumZ_lookup_le row z).
    + apply Forall_lookup. intros j v. rewrite Hget, Hcells.
      case_decide; [|done]. intros [= <-]. case_decide; lia.
    + rewrite Hget, Hcells. rewrite decide_True by lia. f_equal.
      rewrite decide_True; [done|]. unfold zone_of. by rewrite decide_True.
Qed.

Lemma zone_assignment_spec_witness :
  let coords_j := [P 0 0; P 3 4; P 10 0] in
  ∃ L_Z, build_L_Z coords_j 2 [1%nat] = Some L_Z
         ∧ has_shape 2 (num_locations coords_j) L_Z
         ∧ (∀ z, (z < 2)%nat → ∃ row, L_Z !! z = Some row ∧ 1 ≤ sumZ row).
Proof.
  intros coords_j.
  destruct (zone_assignment_spec coords_j 2 [1%nat])
    as (L_Z & HL & Hshape & _ & _ & Hsum).
  - simpl. lia.
  - reflexivity.
  - repeat constructor.
  - exists L_Z. split; [exact HL|]. split; [exact Hshape | exact Hsum].
Defined.

(** With more zones than sites the seeding loop indexes column
    [num_locations] and raises. *)
Lemma build_L_Z_more_zones_than_sites (coords_j : list point)
    (num_rain_zones : nat) (remaining_assignments : list nat) :
  (num_locations coords_j < num_rain_zones)%nat →
  build_L_Z coords_j num_rain_zones remaining_assignments = None.
Proof.
  intros Hlt. unfold build_L_Z.
  set (N := num_locations coords_j) in *.
  assert (range 0 num_rain_zones = range 0 N ++ N :: range (S N) num_rain_zones)
    as ->.
  { unfold range. rewrite !Nat.sub_0_r.
    replace num_rain_zones with (N + S (num_rain_zones - S N))%nat at 1 by lia.
    rewrite seq_app. simpl. done. }
  rewrite for_each_opt_app.
  destruct (for_each_opt_inv (λ _, has_shape num_rain_zones N)
              (λ i L_Z, mat_set_checked L_Z i i 1) (range 0 N)
              (zeros num_rain_zones N)) as (L_Z & -> & Hshape).
  - apply zeros_shape.
  - intros i a L_Z Ha Hshape.
    assert (a = i ∧ (i < N)%nat) as [-> Hi].
    { unfold range in Ha. apply lookup_seq in Ha. lia. }
    exists (mat_set L_Z i i 1). split; [|by apply mat_set_shape].
    destruct (has_shape_row _ _ i L_Z Hshape) as (row & Hrow & Hlen); [lia|].
    unfold mat_set_checked. rewrite Hrow. simpl. by rewrite decide_True by lia.
  - simpl.
    destruct (has_shape_row _ _ N L_Z Hshape Hlt) as (row & Hrow & Hlen).
    unfold mat_set_checked. rewrite Hrow. simpl. by rewrite decide_False by lia.
Qed.

(** ** Sums *)

Lemma lpSum_nil {A : Type} (f : A → Z) : lpSum f [] = 0.
Proof. done. Qed.

Lemma lpSum_cons {A : Type} (f : A → Z) (a : A) (l : list A) :
  lpSum f (a :: l) = f a + lpSum f l.
Proof. done. Qed.

Lemma lpSum_app {A : Type} (f : A → Z) (l1 l2 : list A) :
  lpSum f (l1 ++ l2) = lpSum f l1 + lpSum f l2.
Proof.
  induction l1 as [|a l1 IH]; [done|].
  rewrite <- app_comm_cons, !lpSum_cons, IH. lia.
Qed.

Lemma lpSum_ext {A : Type} (f g : A → Z) (l : list A) :
  (∀ a, a ∈ l → f a = g a) → lpSum f l = lpSum g l.
Proof.
  induction l as [|a l IH]; intros Hfg; [done|].
  rewrite !lpSum_cons, IH, (Hfg a); [done | by left |].
  intros b Hb. apply Hfg. by right.
Qed.

Lemma lpSum_le {A : Type} (f g : A → Z) (l : list A) :
  (∀ a, a ∈ l → f a ≤ g a) → lpSum f l ≤ lpSum g l.
Proof.
  induction l as [|a l IH]; intros Hfg; [done|].
  rewrite !lpSum_cons.
  assert (f a ≤ g a) by (apply Hfg; by left).
  assert (lpSum f l ≤ lpSum g l) by (apply IH; intros b Hb; apply Hfg; by right).
  lia.
Qed.

Lemma lpSum_zero {A : Type} (f : A → Z) (l : list A) :
  (∀ a, a ∈ l → f a = 0) → lpSum f l = 0.
Proof.
  induction l as [|a l IH]; intros Hf; [done|].
  rewrite lpSum_cons, IH, (Hf a); [done | by left |].
  intros b Hb. apply Hf. by right.
Qed.

Lemma lpSum_add {A : Type} (f g : A → Z) (l : list A) :
  lpSum (λ a, f a + g a) l = lpSum f l + lpSum g l.
Proof.
  induction l as [|a l IH]; [done|]. rewrite !lpSum_cons, IH. lia.
Qed.

Lemma lpSum_bind {A B : Type} (f : B → Z) (g : A → list B) (l : list A) :
  lpSum f (l ≫= g) = lpSum (λ a, lpSum f (g a)) l.
Proof.
  induction l as [|a l IH]; [done|].
  rewrite bind_cons, lpSum_app, lpSum_cons, IH. done.
Qed.

Lemma lpSum_filter {A : Type} (P : A → Prop) `{!∀ a, Decision (P a)}
    (f : A → Z) (l : list A) :
  lpSum f (filter P l) = lpSum (λ a, if decide (P a) then f a else 0) l.
Proof.
  induction l as [|a l IH]; [done|].
  rewrite filter_cons, lpSum_cons. case_decide.
  - by rewrite lpSum_cons, IH.
  - by rewrite IH.
Qed.

(** Exchange of the order of summation. *)
Lemma lpSum_swap {A B : Type} (f : A → B → Z) (l1 : list A) (l2 : list B) :
  lpSum (λ a, lpSum (λ b, f a b) l2) l1 = lpSum (λ b, lpSum (λ a, f a b) l1) l2.
Proof.
  induction l1 as [|a l1 IH].
  - symmetry. by apply lpSum_zero.
  - rewrite lpSum_cons, IH, <- lpSum_add. done.
Qed.

(** A sum with a single non-zero term. *)
Lemma lpSum_single (f : nat → Z) (n s : nat) :
  (s < n)%nat →
  lpSum (λ j, if decide (j = s) then f j else 0) (range 0 n) = f s.
Proof.
  induction n as [|n IH]; intros Hs; [lia|].
  rewrite range_snoc, lpSum_app by lia. rewrite lpSum_cons, lpSum_nil.
  destruct (decide (s = n)) as [->|Hne].
  - rewrite decide_True by done. rewrite lpSum_zero; [lia|].
    intros j Hj. apply elem_of_range in Hj. rewrite decide_False; [done | lia].
  - rewrite IH by lia. rewrite decide_False; [lia | done].
Qed.

Lemma forallb_elem_of {A : Type} (f : A → bool) (l : list A) :
  forallb f l = true ↔ ∀ a, a ∈ l → f a = true.
Proof.
  rewrite forallb_forall. split; intros H a Ha; apply H; by apply list_elem_of_In.
Qed.

Lemma is_binary_iff (v : Z) : is_binary v = true ↔ v = 0 ∨ v = 1.
Proof. unfold is_binary. rewrite orb_true_iff, !Z.eqb_eq. done. Qed.

(** ** The constraint system *)

Section ModelFacts.
Variables N W Z' : nat.
Variables S_W L_Z V : matrix.

Lemma elem_of_locations (j : nat) : j ∈ locations N ↔ (j < N)%nat.
Proof. unfold locations. rewrite elem_of_range. lia. Qed.

Lemma elem_of_links (j k : nat) : (j, k) ∈ links N ↔ (j < k < N)%nat.
Proof.
  unfold links. rewrite list_elem_of_bind. split.
  - intros (j' & Hjk & Hj'). apply list_elem_of_bind in Hjk as (k' & Hjk & Hk').
    apply elem_of_locations in Hk'. case_decide; [|by apply elem_of_nil in Hjk].
    apply list_elem_of_singleton in Hjk as [= -> ->]. lia.
  - intros [Hjk Hk]. exists j. split; [|apply elem_of_locations; lia].
    apply list_elem_of_bind. exists k. split; [|by apply elem_of_locations].
    rewrite decide_True by done. by apply list_elem_of_singleton.
Qed.

Lemma elem_of_links_inv (l : nat * nat) : l ∈ links N → (l.1 < l.2 < N)%nat.
Proof. destruct l as [j k]. apply elem_of_links. Qed.

(** Membership in the list of constraints. *)
Lemma elem_of_constraints (c : constraint) :
  c ∈ constraints N W Z' S_W L_Z V ↔
    c = c_Force_Tree_Network N
    ∨ (∃ i, (i < W)%nat ∧ c = c_WaterCoverage N S_W i)
    ∨ (∃ z, (z < Z')%nat ∧ c = c_RainZone N L_Z z)
    ∨ (∃ l, l ∈ links N ∧ (c = c_LinkActivation l ∨ c = c_LineOfSight V l))
    ∨ (∃ j, (j < N)%nat ∧ c = c_ConnectivityEnforcement N j).
Proof.
  unfold constraints. rewrite !elem_of_app, list_elem_of_singleton.
  rewrite !list_elem_of_fmap, list_elem_of_bind.
  setoid_rewrite elem_of_range.
  setoid_rewrite elem_of_cons. setoid_rewrite list_elem_of_singleton.
  split.
  - intros [->|[(i & -> & Hi)|[(z & -> & Hz)|[(l & Hc & Hl)|(j & -> & Hj)]]]].
    + by left.
    + right. left. exists i. split; [lia | done].
    + right. right. left. exists z. split; [lia | done].
    + right. right. right. left. by exists l.
    + right. right. right. right. exists j. split; [lia | done].
  - intros [->|[(i & Hi & ->)|[(z & Hz & ->)|[(l & Hl & Hc)|(j & Hj & ->)]]]].
    + by left.
    + right. left. exists i. split; [done | lia].
    + right. right. left. exists z. split; [done | lia].
    + right. right. right. left. by exists l.
    + right. right. right. right. exists j. split; [done | lia].
Qed.

(** What feasibility means, constraint by constraint. *)
Lemma feasible_iff (a : assignment) :
  feasible N W Z' S_W L_Z V a = true ↔
    (∀ j, (j < N)%nat → xval a j = 0 ∨ xval a j = 1)
    ∧ (∀ j k, (j < k < N)%nat → yval a (j, k) = 0 ∨ yval a (j, k) = 1)
    ∧ lpSum (yval a) (links N) = lpSum (xval a) (locations N) - 1
    ∧ (∀ i, (i < W)%nat → 1 ≤ lpSum (λ j, coef S_W i j * xval a j) (locations N))
    ∧ (∀ z, (z < Z')%nat → 1 ≤ lpSum (λ j, coef L_Z z j * xval a j) (locations N))
    ∧ (∀ j k, (j < k < N)%nat →
         2 * yval a (j, k) ≤ xval a j + xval a k
         ∧ yval a (j, k) ≤ coef V j k)
    ∧ (∀ j, (j < N)%nat → xval a j ≤ total_links_for N a j).
Proof.
  unfold feasible, binary. rewrite !andb_true_iff, !forallb_elem_of.
  setoid_rewrite is_binary_iff. setoid_rewrite elem_of_constraints.
  split.
  - intros [[Hx Hy] Hc]. split_and!.
    + intros j Hj. apply Hx. by apply elem_of_locations.
    + intros j k Hjk. apply (Hy (j, k)). by apply elem_of_links.
    + specialize (Hc (c_Force_Tree_Network N)). simpl in Hc.
      apply Z.eqb_eq. apply Hc. by left.
    + intros i Hi. specialize (Hc (c_WaterCoverage N S_W i)). simpl in Hc.
      apply Z.leb_le. apply Hc. right. left. eauto.
    + intros z Hz. specialize (Hc (c_RainZone N L_Z z)). simpl in Hc.
      apply Z.leb_le. apply Hc. right. right. left. eauto.
    + intros j k Hjk. apply elem_of_links in Hjk. split.
      * specialize (Hc (c_LinkActivation (j, k))). simpl in Hc.
        apply Z.leb_le. apply Hc. right. right. right. left. eauto.
      * specialize (Hc (c_LineOfSight V (j, k))). simpl in Hc.
        apply Z.leb_le. apply Hc. right. right. right. left. eauto.
    + intros j Hj. specialize (Hc (c_ConnectivityEnforcement N j)). simpl in Hc.
      apply Z.leb_le. apply Hc. right. right. right. right. eauto.
  - intros (Hx & Hy & Htree & Hw & Hz & Hl & Hc). split; [split|].
    + intros j Hj. apply Hx. by apply elem_of_locations.
    + intros [j k] Hjk. apply Hy. by apply elem_of_links.
    + intros c [->|[(i & Hi & ->)|[(z & Hz' & ->)|[(l & Hl' & [->| ->])|(j & Hj & ->)]]]];
        simpl.
      * by apply Z.eqb_eq.
      * apply Z.leb_le. by apply Hw.
      * apply Z.leb_le. by apply Hz.
      * destruct l as [j k]. apply elem_of_links in Hl'. apply Z.leb_le.
        by apply Hl.
      * destruct l as [j k]. apply elem_of_links in Hl'. apply Z.leb_le.
        by apply Hl.
      * apply Z.leb_le. by apply Hc.
Qed.
End ModelFacts.

Section Handshake.
Variable N : nat.
Variable a : assignment.

(** [y[(j, k)]] when [(j, k)] is a link, 0 otherwise. *)
Let y_link (j k : nat) : Z := if decide (j < k)%nat then yval a (j, k) else 0.

Lemma lpSum_links :
  lpSum (yval a) (links N)
  = lpSum (λ j, lpSum (λ k, y_link j k) (locations N)) (locations N).
Proof.
  unfold links. rewrite lpSum_bind. apply lpSum_ext. intros j _.
  rewrite lpSum_bind. apply lpSum_ext. intros k _.
  unfold y_link. case_decide; [|done]. rewrite lpSum_cons, lpSum_nil. lia.
Qed.

Lemma links_from_y_link (j : nat) :
  links_from N a j = lpSum (λ k, y_link j k) (locations N).
Proof. unfold links_from. by rewrite lpSum_filter. Qed.

Lemma links_to_y_link (j : nat) :
  links_to N a j = lpSum (λ k, y_link k j) (locations N).
Proof. unfold links_to. by rewrite lpSum_filter. Qed.

(** Every link is counted at both of its endpoints. *)
Lemma degree_sum :
  lpSum (total_links_for N a) (locations N) = 2 * lpSum (yval a) (links N).
Proof.
  unfold total_links_for. rewrite lpSum_add.
  rewrite (lpSum_ext (links_to N a) _ _ (λ j _, links_to_y_link j)).
  rewrite (lpSum_ext (links_from N a) _ _ (λ j _, links_from_y_link j)).
  rewrite (lpSum_swap (λ j k, y_link k j)). rewrite lpSum_links. lia.
Qed.
End Handshake.

Section Feasible.
Variables N W Z' : nat.
Variables S_W L_Z V : matrix.
Variable a : assignment.
Hypothesis a_feasible : feasible N W Z' S_W L_Z V a = true.

Lemma feasible_tree_size :
  lpSum (yval a) (links N) = lpSum (xval a) (locations N) - 1.
Proof. apply feasible_iff in a_feasible. tauto. Qed.

Lemma feasible_at_least_two : 2 ≤ objective N a.
Proof.
  pose proof feasible_tree_size as Htree.
  apply feasible_iff in a_feasible as (_ & _ & _ & _ & _ & _ & Hdeg).
  assert (lpSum (xval a) (locations N) ≤ lpSum (total_links_for N a) (locations N))
    as Hsum.
  { apply lpSum_le. intros j Hj. apply Hdeg. by apply elem_of_locations. }
  rewrite degree_sum in Hsum. unfold objective. lia.
Qed.

Lemma feasible_link_endpoints (j k : nat) :
  (j < k < N)%nat → yval a (j, k) = 1 →
  xval a j = 1 ∧ xval a k = 1 ∧ 1 ≤ coef V j k.
Proof.
  intros Hjk Hy.
  apply feasible_iff in a_feasible as (Hx & _ & _ & _ & _ & Hlink & _).
  destruct (Hlink j k Hjk) as [Hact Hlos].
  pose proof (Hx j ltac:(lia)). pose proof (Hx k ltac:(lia)). lia.
Qed.
End Feasible.

(** ** The solver *)

Lemma first_min_elem {A : Type} (obj : A → Z) (best : A) (l : list A) :
  first_min obj best l ∈ best :: l.
Proof.
  revert best. induction l as [|a l IH]; intros best; simpl.
  - by left.
  - specialize (IH (if obj a <? obj best then a else best)).
    apply elem_of_cons in IH as [->|IH].
    + destruct (obj a <? obj best); [right; by left | by left].
    + right. by right.
Qed.

Lemma first_min_le {A : Type} (obj : A → Z) (best : A) (l : list A) (b : A) :
  b ∈ best :: l → obj (first_min obj best l) ≤ obj b.
Proof.
  revert best b. induction l as [|a l IH]; intros best b; simpl.
  - intros ->%list_elem_of_singleton. lia.
  - intros Hb.
    pose proof (IH (if obj a <? obj best then a else best)
                   (if obj a <? obj best then a else best)) as Hstep.
    specialize (Hstep ltac:(by left)).
    apply elem_of_cons in Hb as [->|Hb]; [|apply elem_of_cons in Hb as [->|Hb]].
    + destruct (obj a <? obj best) eqn:Hlt; [apply Z.ltb_lt in Hlt|]; lia.
    + destruct (obj a <? obj best) eqn:Hlt; [|apply Z.ltb_ge in Hlt]; lia.
    + apply IH. by right.
Qed.

Section SolveFacts.
Variables N W Z' : nat.
Variables S_W L_Z V : matrix.

(** An [Optimal] status comes with a feasible assignment of least
    objective among the valuations tried. *)
Lemma solve_Optimal (sol : option assignment) :
  solve N W Z' S_W L_Z V = (Optimal, sol) →
  ∃ a, sol = Some a ∧ feasible N W Z' S_W L_Z V a = true
       ∧ ∀ b, b ∈ candidates N → feasible N W Z' S_W L_Z V b = true →
              objective N a ≤ objective N b.
Proof.
  unfold solve.
  destruct (filter _ (candidates N)) as [|a0 l] eqn:Hfilter; [done|].
  intros [= <-]. eexists. split; [done|].
  pose proof (first_min_elem (objective N) a0 l) as Hin.
  rewrite <- Hfilter in Hin. apply list_elem_of_filter in Hin as [Hfeas _].
  split; [done|]. intros b Hb Hbf. apply first_min_le.
  rewrite <- Hfilter. by apply list_elem_of_filter.
Qed.

Lemma solve_status :
  (solve N W Z' S_W L_Z V).1 = Optimal
  ∨ solve N W Z' S_W L_Z V = (Infeasible, None).
Proof. unfold solve. destruct (filter _ _); [by right | by left]. Qed.

(** Without a feasible assignment the status is [Infeasible]. *)
Lemma solve_Infeasible :
  (∀ a, feasible N W Z' S_W L_Z V a = false) →
  solve N W Z' S_W L_Z V = (Infeasible, None).
Proof.
  intros Hnone. unfold solve.
  destruct (filter _ (candidates N)) as [|a0 l] eqn:Hfilter; [done|].
  assert (a0 ∈ filter (λ a, feasible N W Z' S_W L_Z V a = true) (candidates N))
    as Hin by (rewrite Hfilter; by left).
  apply list_elem_of_filter in Hin as [Hfeas _]. by rewrite Hnone in Hfeas.
Qed.
End SolveFacts.

Section SolveComplete.
Context {K : Type} `{EqDecision K}.

Lemma valuations_outside (ks : list K) (g : K → Z) (k : K) :
  g ∈ valuations ks → k ∉ ks → g k = 0.
Proof.
  revert g. induction ks as [|k0 ks IH]; intros g; simpl.
  - by intros ->%list_elem_of_singleton.
  - rewrite list_elem_of_bind. intros (f & Hg & Hf) Hk.
    apply not_elem_of_cons in Hk as [Hne Hk].
    apply elem_of_cons in Hg as [->|Hg]; [by apply IH|].
    apply list_elem_of_singleton in Hg as ->.
    rewrite decide_False by done. by apply IH.
Qed.

(** Every 0/1 valuation of the keys is tried. *)
Lemma valuations_complete (ks : list K) (f : K → Z) :
  (∀ k, k ∈ ks → f k = 0 ∨ f k = 1) →
  ∃ g, g ∈ valuations ks ∧ ∀ k, k ∈ ks → g k = f k.
Proof.
  induction ks as [|k0 ks IH]; intros Hf; simpl.
  - exists (λ _, 0). split; [by left | by intros k ?%elem_of_nil].
  - destruct IH as (g & Hg & Hgf); [intros k Hk; apply Hf; by right|].
    destruct (Hf k0 ltac:(by left)) as [H0|H1].
    + exists g. split.
      * apply list_elem_of_bind. exists g. split; [by left | done].
      * intros k [->|Hk]%elem_of_cons; [|by apply Hgf].
        destruct (decide (k0 ∈ ks)) as [Hin|Hout].
        -- by apply Hgf.
        -- rewrite H0. by eapply valuations_outside.
    + exists (λ k', if decide (k' = k0) then 1 else g k'). split.
      * apply list_elem_of_bind. exists g. split; [right; by left | done].
      * intros k Hk. case_decide as Hkk; [by subst|].
        apply elem_of_cons in Hk as [->|Hk]; [done | by apply Hgf].
Qed.
End SolveComplete.

Section SolveComplete2.
Variables N W Z' : nat.
Variables S_W L_Z V : matrix.

(** Feasibility only looks at the declared variables. *)
Lemma feasible_agree (a b : assignment) :
  (∀ j, (j < N)%nat → xval b j = xval a j) →
  (∀ j k, (j < k < N)%nat → yval b (j, k) = yval a (j, k)) →
  feasible N W Z' S_W L_Z V a = true → feasible N W Z' S_W L_Z V b = true.
Proof.
  intros Hx Hy. rewrite !feasible_iff.
  assert (∀ f : nat → Z,
            lpSum (λ j, f j * xval b j) (locations N)
            = lpSum (λ j, f j * xval a j) (locations N)) as Hcoef.
  { intros f. apply lpSum_ext. intros j Hj%elem_of_locations. by rewrite Hx. }
  assert (lpSum (xval b) (locations N) = lpSum (xval a) (locations N)) as Hsx.
  { apply lpSum_ext. intros j Hj%elem_of_locations. by apply Hx. }
  assert (lpSum (yval b) (links N) = lpSum (yval a) (links N)) as Hsy.
  { apply lpSum_ext. intros [j k] Hjk%elem_of_links. by apply Hy. }
  assert (∀ j, (j < N)%nat → total_links_for N b j = total_links_for N a j)
    as Hdeg.
  { intros j Hj. unfold total_links_for, links_to, links_from. f_equal.
    - apply lpSum_ext. intros k [Hkj Hk%elem_of_locations]%list_elem_of_filter.
      apply Hy. lia.
    - apply lpSum_ext. intros k [Hkj Hk%elem_of_locations]%list_elem_of_filter.
      apply Hy. lia. }
  intros (Hbx & Hby & Htree & Hw & Hz & Hl & Hc). split_and!.
  - intros j Hj. rewrite Hx by done. by apply Hbx.
  - intros j k Hjk. rewrite Hy by done. by apply Hby.
  - by rewrite Hsx, Hsy.
  - intros i Hi. rewrite Hcoef. by apply Hw.
  - intros z Hz'. rewrite Hcoef. by apply Hz.
  - intros j k Hjk. rewrite Hy, !Hx by lia. by apply Hl.
  - intros j Hj. rewrite Hx, Hdeg by done. by apply Hc.
Qed.

Lemma candidates_complete (a : assignment) :
  feasible N W Z' S_W L_Z V a = true →
  ∃ b, b ∈ candidates N ∧ feasible N W Z' S_W L_Z V b = true.
Proof.
  intros Ha. pose proof Ha as (Hx & Hy & _)%feasible_iff.
  destruct (valuations_complete (locations N) (xval a)) as (xs & Hxs & Hxa).
  { intros j Hj%elem_of_locations. by apply Hx. }
  destruct (valuations_complete (links N) (yval a)) as (ys & Hys & Hya).
  { intros [j k] Hjk%elem_of_links. by apply Hy. }
  exists (Assignment xs ys). split.
  - unfold candidates. apply list_elem_of_bind. exists xs. split; [|done].
    apply list_elem_of_bind. exists ys. split; [by left | done].
  - apply (feasible_agree a); [| |done]; simpl.
    + intros j Hj. apply Hxa. by apply elem_of_locations.
    + intros j k Hjk. apply Hya. by apply elem_of_links.
Qed.

(** The status is [Optimal] as soon as some assignment is feasible. *)
Lemma solve_feasible_Optimal (a : assignment) :
  feasible N W Z' S_W L_Z V a = true →
  (solve N W Z' S_W L_Z V).1 = Optimal.
Proof.
  intros (b & Hb & Hbf)%candidates_complete. unfold solve.
  destruct (filter _ (candidates N)) as [|a0 l] eqn:Hfilter; [|done].
  assert (b ∈ filter (λ a, feasible N W Z' S_W L_Z V a = true) (candidates N))
    as Hin by by apply list_elem_of_filter.
  rewrite Hfilter in Hin. by apply elem_of_nil in Hin.
Qed.
End SolveComplete2.

(** ** Properties of every feasible assignment *)

(** C5.  In every feasible assignment, and so in every solution returned
    with status [Optimal], the number of active links is the number of
    selected sites minus one. *)
Theorem tree_size_exact (N W Z' : nat) (S_W L_Z V : matrix) (a : assignment) :
  feasible N W Z' S_W L_Z V a = true
  ∨ solve N W Z' S_W L_Z V = (Optimal, Some a) →
  lpSum (yval a) (links N) = lpSum (xval a) (locations N) - 1.
Proof.
  intros [Ha|Hsol].
  - by eapply feasible_tree_size.
  - apply solve_Optimal in Hsol as (a' & [= <-] & Ha & _).
    by eapply feasible_tree_size.
Qed.

Lemma tree_size_exact_witness :
  let a := Assignment (λ _, 1) (λ _, 1) in
  feasible 2 2 1 [[1; 0]; [0; 1]] [[1; 1]] [[0; 1]; [1; 0]] a = true
  ∧ lpSum (yval a) (links 2) = lpSum (xval a) (locations 2) - 1.
Proof.
  intros a. split; [reflexivity|].
  apply (tree_size_exact 2 2 1 [[1; 0]; [0; 1]] [[1; 1]] [[0; 1]; [1; 0]] a).
  left. reflexivity.
Defined.

(** C6.  In every feasible assignment, and so in every solution returned
    with status [Optimal], an active link has both of its endpoints
    selected, and the two sites are adjacent in the connectivity matrix. *)
Theorem active_link_endpoints (coords_j : list point) (comm_link_range : float64)
    (W Z' : nat) (S_W L_Z : matrix) (a : assignment) (j k : nat) :
  let N := num_locations coords_j in
  let V := build_V coords_j comm_link_range in
  feasible N W Z' S_W L_Z V a = true
  ∨ solve N W Z' S_W L_Z V = (Optimal, Some a) →
  (j, k) ∈ links N →
  yval a (j, k) = 1 →
  xval a j = 1 ∧ xval a k = 1 ∧ mat_get V j k = Some 1.
Proof.
  intros N V Hfeas Hjk%elem_of_links Hy.
  assert (feasible N W Z' S_W L_Z V a = true) as Ha.
  { destruct Hfeas as [Ha|Hsol]; [done|].
    by apply solve_Optimal in Hsol as (a' & [= <-] & Ha & _). }
  destruct (feasible_link_endpoints N W Z' S_W L_Z V a Ha j k Hjk Hy)
    as (Hxj & Hxk & HV).
  split_and!; [done | done |].
  unfold coef, V in HV. unfold V.
  rewrite build_V_get in HV |- * by (fold N; lia).
  simpl in HV. case_decide; [done | lia].
Qed.

Lemma active_link_endpoints_witness :
  let coords_j := [P 0 0; P 1000 0] in
  let a := Assignment (λ _, 1) (λ _, 1) in
  xval a 0%nat = 1 ∧ xval a 1%nat = 1
  ∧ mat_get (build_V coords_j (F 1500)) 0 1 = Some 1.
Proof.
  intros coords_j a.
  apply (active_link_endpoints coords_j (F 1500) 2 1 [[1; 0]; [0; 1]] [[1; 1]] a 0 1).
  - left. vm_compute. reflexivity.
  - apply elem_of_links. simpl. lia.
  - reflexivity.
Defined.

(** C2.  Every feasible assignment selects at least two sites. *)
Theorem feasible_selects_two (N W Z' : nat) (S_W L_Z V : matrix) (a : assignment) :
  feasible N W Z' S_W L_Z V a = true →
  2 ≤ lpSum (xval a) (locations N).
Proof. intros Ha. by eapply feasible_at_least_two. Qed.

Lemma feasible_selects_two_witness :
  let a := Assignment (λ _, 1) (λ _, 1) in
  feasible 2 2 1 [[1; 0]; [0; 1]] [[1; 1]] [[0; 1]; [1; 0]] a = true
  ∧ 2 ≤ lpSum (xval a) (locations 2).
Proof.
  intros a. split; [reflexivity|].
  apply (feasible_selects_two 2 2 1 [[1; 0]; [0; 1]] [[1; 1]] [[0; 1]; [1; 0]] a).
  reflexivity.
Defined.

(** ** The pipeline *)

Lemma run_outcome (coords_j coords_i : list point)
    (water_sensor_range comm_link_range : float64) (num_rain_zones : nat)
    (remaining_assignments : list nat) (C_capex_per_turbine C_opex_per_turbine T : Z)
    (S_W L_Z V : matrix) :
  parameter_matrices coords_j coords_i water_sensor_range comm_link_range
    num_rain_zones remaining_assignments = Some (S_W, L_Z, V) →
  let res := solve (num_locations coords_j) (num_water_areas coords_i)
               num_rain_zones S_W L_Z V in
  run coords_j coords_i water_sensor_range comm_link_range num_rain_zones
    remaining_assignments C_capex_per_turbine C_opex_per_turbine T
  = Some (Outcome res.1
            (interpret (num_locations coords_j) C_capex_per_turbine
               C_opex_per_turbine T res.1 res.2)).
Proof.
  intros Hpm res. unfold run. rewrite Hpm. unfold res. cbn -[solve].
  generalize (solve (num_locations coords_j) (num_water_areas coords_i)
                num_rain_zones S_W L_Z V).
  by intros [st sol].
Qed.

Lemma run_inv (coords_j coords_i : list point)
    (water_sensor_range comm_link_range : float64) (num_rain_zones : nat)
    (remaining_assignments : list nat) (C_capex_per_turbine C_opex_per_turbine T : Z)
    (o : outcome) :
  run coords_j coords_i water_sensor_range comm_link_range num_rain_zones
    remaining_assignments C_capex_per_turbine C_opex_per_turbine T = Some o →
  ∃ S_W L_Z V,
    parameter_matrices coords_j coords_i water_sensor_range comm_link_range
      num_rain_zones remaining_assignments = Some (S_W, L_Z, V)
    ∧ let res := solve (num_locations coords_j) (num_water_areas coords_i)
                   num_rain_zones S_W L_Z V in
      o = Outcome res.1
            (interpret (num_locations coords_j) C_capex_per_turbine
               C_opex_per_turbine T res.1 res.2).
Proof.
  intros Hrun.
  destruct (parameter_matrices coords_j coords_i water_sensor_range
              comm_link_range num_rain_zones remaining_assignments)
    as [[[S_W L_Z] V]|] eqn:Hpm.
  - exists S_W, L_Z, V. split; [done|]. intros res.
    rewrite (run_outcome _ _ _ _ _ _ _ _ _ _ _ _ Hpm) in Hrun.
    by injection Hrun as <-.
  - unfold run in Hrun. by rewrite Hpm in Hrun.
Qed.

(** ** No adjacency *)

Section NoLinks.
Variables N W Z' : nat.
Variables S_W L_Z V : matrix.

(** When the connectivity matrix allows no link, nothing is feasible. *)
Lemma no_links_infeasible :
  (∀ j k, (j < k < N)%nat → coef V j k ≤ 0) →
  ∀ a, feasible N W Z' S_W L_Z V a = false.
Proof.
  intros HV a. apply not_true_is_false. intros Ha.
  pose proof (feasible_at_least_two _ _ _ _ _ _ _ Ha) as Htwo.
  pose proof (feasible_tree_size _ _ _ _ _ _ _ Ha) as Htree.
  apply feasible_iff in Ha as (_ & Hy & _ & _ & _ & Hlink & _).
  rewrite lpSum_zero in Htree.
  - unfold objective in Htwo. lia.
  - intros [j k] Hjk%elem_of_links.
    destruct (Hlink j k Hjk) as [_ Hlos]. specialize (HV j k Hjk).
    destruct (Hy j k Hjk); lia.
Qed.
End NoLinks.

Lemma build_V_coef_01 (coords_j : list point) (r : float64) (j k : nat) :
  coef (build_V coords_j r) j k = 0 ∨ coef (build_V coords_j r) j k = 1.
Proof.
  unfold coef.
  destruct (decide (j < num_locations coords_j ∧ k < num_locations coords_j)%nat)
    as [[Hj Hk]|Hn].
  - rewrite build_V_get by done. simpl. case_decide; auto.
  - rewrite build_V_get_None by done. auto.
Qed.

(** C7 (amended).  When the connectivity matrix built for the
    communication range has no entry 1 above the diagonal, that is, when
    the adjacency relation permits no link at all, the assembled system
    has no feasible assignment whatever the coverage and zone matrices
    are, and the status is [Infeasible]. *)
Theorem no_adjacency_infeasible (coords_j : list point) (comm_link_range : float64)
    (W Z' : nat) (S_W L_Z : matrix) :
  let N := num_locations coords_j in
  let V := build_V coords_j comm_link_range in
  (∀ j k, (j < k < N)%nat → mat_get V j k ≠ Some 1) →
  (∀ a, feasible N W Z' S_W L_Z V a = false)
  ∧ solve N W Z' S_W L_Z V = (Infeasible, None)
  ∧ (∀ coords_i water_sensor_range remaining_assignments
       C_capex_per_turbine C_opex_per_turbine T o,
       run coords_j coords_i water_sensor_range comm_link_range Z'
         remaining_assignments C_capex_per_turbine C_opex_per_turbine T = Some o →
       o = Outcome Infeasible None).
Proof.
  intros N V Hno.
  assert (∀ j k, (j < k < N)%nat → coef V j k ≤ 0) as HV.
  { intros j k Hjk. specialize (Hno j k Hjk). unfold coef. unfold V in *.
    rewrite build_V_get in Hno |- * by (fold N; lia). simpl.
    by case_decide. }
  split; [by apply no_links_infeasible|].
  split; [by apply solve_Infeasible, no_links_infeasible|].
  intros coords_i wsr rem C1 C2 T o (S_W' & L_Z' & V' & Hpm & ->)%run_inv.
  assert (V' = V) as ->.
  { unfold parameter_matrices in Hpm.
    destruct (repair _ _ _); simpl in Hpm; [|done].
    destruct (build_L_Z _ _ _); simpl in Hpm; [|done]. by injection Hpm. }
  cbv zeta. fold N.
  rewrite (solve_Infeasible N (num_water_areas coords_i) Z' S_W' L_Z' V); [done|].
  by apply no_links_infeasible.
Qed.

Lemma no_adjacency_infeasible_witness :
  let coords_j := [P 0 0; P 1000 0] in
  (∀ j k, (j < k < 2)%nat → mat_get (build_V coords_j (F 0)) j k ≠ Some 1)
  ∧ solve 2 2 1 [[1; 0]; [0; 1]] [[1; 1]] (build_V coords_j (F 0))
    = (Infeasible, None)
  ∧ run coords_j [P 0 0; P 1000 0] (F 500) (F 0) 1 [0%nat] 800000 1200000 10
    = Some (Outcome Infeasible None).
Proof.
  intros coords_j.
  assert (∀ j k, (j < k < 2)%nat
                 → mat_get (build_V coords_j (F 0)) j k ≠ Some 1) as Hno.
  { intros j k Hjk. assert (j = 0%nat ∧ k = 1%nat) as [-> ->] by lia.
    vm_compute. discriminate. }
  split; [exact Hno|].
  destruct (no_adjacency_infeasible coords_j (F 0) 2 1 [[1; 0]; [0; 1]] [[1; 1]] Hno)
    as (_ & Hsolve & Hrun).
  split; [exact Hsolve|].
  destruct (run coords_j [P 0 0; P 1000 0] (F 500) (F 0) 1 [0%nat]
              800000 1200000 10) as [o|] eqn:Ho.
  - f_equal. by eapply Hrun.
  - vm_compute in Ho. discriminate.
Defined.

(** Range 0 does not by itself exclude links between distinct sites: the
    squared distance of the sites [(0, 0)] and [(2^-600, 0)] underflows to
    zero, the sites are adjacent and the status is [Optimal]. *)
Example zero_range_underflow_adjacent :
  let coords_j := [P 0 0; (F2 1 (-600), F 0)] in
  build_V coords_j (F 0) = [[0; 1]; [1; 0]]
  ∧ ∃ rep, run coords_j coords_j (F 500) (F 0) 1 [0%nat] 800000 1200000 10
           = Some (Outcome Optimal (Some rep)).
Proof. split; [vm_compute; reflexivity|]. eexists. vm_compute. reflexivity. Qed.

(** C7, as stated, fails when candidate sites coincide.  Three sites at one
    position and two at another, one water area at each position, range 0:
    coverage forces a site from each group, yet selecting all five sites
    with the four links inside the groups is feasible and the status is
    [Optimal]. *)
Lemma zero_range_coincident_sites_feasible :
  let coords_j := [P 0 0; P 0 0; P 0 0; P 7 7; P 7 7] in
  let coords_i := [P 0 0; P 7 7] in
  ∃ S_W L_Z V,
    parameter_matrices coords_j coords_i (F 1) (F 0) 1 [0; 0; 0; 0]%nat
    = Some (S_W, L_Z, V)
    ∧ (∀ a, binary 5 a = true →
            holds (c_WaterCoverage 5 S_W 0) a = true →
            holds (c_WaterCoverage 5 S_W 1) a = true →
            1 ≤ xval a 0%nat + xval a 1%nat + xval a 2%nat
            ∧ 1 ≤ xval a 3%nat + xval a 4%nat
            ∧ 2 ≤ objective 5 a)
    ∧ (∃ a, feasible 5 2 1 S_W L_Z V a = true)
    ∧ ∃ o, run coords_j coords_i (F 1) (F 0) 1 [0; 0; 0; 0]%nat 800000 1200000 10 = Some o
           ∧ out_status o = Optimal.
Proof.
  intros coords_j coords_i.
  set (a := Assignment (λ _, 1)
              (λ l, if decide (l ∈ [(0, 1); (0, 2); (1, 2); (3, 4)]%nat)
                    then 1 else 0)).
  assert (parameter_matrices coords_j coords_i (F 1) (F 0) 1 [0; 0; 0; 0]%nat
          = Some ([[1; 1; 1; 0; 0]; [0; 0; 0; 1; 1]], [[1; 1; 1; 1; 1]],
                  [[0; 1; 1; 0; 0]; [1; 0; 1; 0; 0]; [1; 1; 0; 0; 0];
                   [0; 0; 0; 0; 1]; [0; 0; 0; 1; 0]])) as Hpm
    by (vm_compute; reflexivity).
  eexists _, _, _. split; [exact Hpm|].
  assert (feasible 5 2 1 [[1; 1; 1; 0; 0]; [0; 0; 0; 1; 1]] [[1; 1; 1; 1; 1]]
            [[0; 1; 1; 0; 0]; [1; 0; 1; 0; 0]; [1; 1; 0; 0; 0];
             [0; 0; 0; 0; 1]; [0; 0; 0; 1; 0]] a = true) as Ha
    by (vm_compute; reflexivity).
  split_and!.
  - intros b Hb H0 H1. unfold binary in Hb.
    apply andb_true_iff in Hb as [Hb _].
    rewrite forallb_elem_of in Hb.
    pose proof (proj1 (is_binary_iff _) (Hb 0%nat ltac:(apply elem_of_locations; lia))).
    pose proof (proj1 (is_binary_iff _) (Hb 1%nat ltac:(apply elem_of_locations; lia))).
    pose proof (proj1 (is_binary_iff _) (Hb 2%nat ltac:(apply elem_of_locations; lia))).
    pose proof (proj1 (is_binary_iff _) (Hb 3%nat ltac:(apply elem_of_locations; lia))).
    pose proof (proj1 (is_binary_iff _) (Hb 4%nat ltac:(apply elem_of_locations; lia))).
    simpl in H0, H1. apply Z.leb_le in H0, H1.
    unfold objective. cbn in H0, H1 |- *. lia.
  - by exists a.
  - eexists. split; [by apply run_outcome|].
    exact (solve_feasible_Optimal _ _ _ _ _ _ a Ha).
Qed.

(** ** A single selected site *)

Section SingleSite.
Variables N W Z' : nat.
Variables S_W L_Z V : matrix.
Variable s : nat.
Hypothesis s_lt : (s < N)%nat.

Lemma single_site_objective : objective N (single_site s) = 1.
Proof. unfold objective. simpl. by rewrite (lpSum_single (λ _, 1)). Qed.

Lemma single_site_coverage (m : matrix) (i : nat) :
  lpSum (λ j, coef m i j * xval (single_site s) j) (locations N) = coef m i s.
Proof.
  rewrite <- (lpSum_single (λ j, coef m i j) N s s_lt).
  apply lpSum_ext. intros j _. simpl. case_decide; lia.
Qed.

Lemma single_site_no_links (j : nat) : total_links_for N (single_site s) j = 0.
Proof.
  unfold total_links_for, links_to, links_from.
  rewrite !lpSum_zero; done.
Qed.

Lemma single_site_binary : binary N (single_site s) = true.
Proof.
  unfold binary. rewrite andb_true_iff, !forallb_elem_of.
  split; intros ? _; apply is_binary_iff; simpl; [case_decide|]; auto.
Qed.

(** The single-site deployment meets every constraint except the degree
    constraint of the selected site. *)
Lemma single_site_constraints (c : constraint) :
  (∀ i, (i < W)%nat → coef S_W i s = 1) →
  (∀ z, (z < Z')%nat → coef L_Z z s = 1) →
  (∀ j k, 0 ≤ coef V j k) →
  c ∈ constraints N W Z' S_W L_Z V →
  holds c (single_site s) = true ↔ name c ≠ ConnectivityEnforcement s.
Proof.
  intros HS HL HV.
  intros [->|[(i & Hi & ->)|[(z & Hz & ->)|[(l & Hl & [->| ->])|(j & Hj & ->)]]]]
    %elem_of_constraints; cbn [holds name c_Force_Tree_Network c_WaterCoverage
      c_RainZone c_LinkActivation c_LineOfSight c_ConnectivityEnforcement].
  - fold (objective N (single_site s)). rewrite single_site_objective.
    rewrite lpSum_zero by done. done.
  - rewrite single_site_coverage, HS by done. done.
  - rewrite single_site_coverage, HL by done. done.
  - split; [done|]. intros _. apply Z.leb_le. simpl.
    repeat case_decide; lia.
  - split; [done|]. intros _. apply Z.leb_le. simpl. apply HV.
  - rewrite single_site_no_links, Z.leb_le. simpl.
    case_decide as Hjs; [subst j|]; split; try done; try lia.
    intros _ [= ->]. done.
Qed.
End SingleSite.

(** C1 (amended).  When site [s] covers every water area and lies in every
    rain zone, the deployment of the single turbine [s] with no active link
    satisfies the tree-size, coverage, zone, link-activation and
    line-of-sight constraints and the degree constraints of the other
    sites, but violates the degree constraint of [s]; it is not feasible,
    every feasible assignment selects at least two sites, and with a single
    candidate site the status is [Infeasible]. *)
Theorem single_site_violates_degree (coords_j : list point) (comm_link_range : float64)
    (W Z' : nat) (S_W L_Z : matrix) (s : nat) :
  let N := num_locations coords_j in
  let V := build_V coords_j comm_link_range in
  (s < N)%nat →
  (∀ i, (i < W)%nat → mat_get S_W i s = Some 1) →
  (∀ z, (z < Z')%nat → mat_get L_Z z s = Some 1) →
  binary N (single_site s) = true
  ∧ (∀ c, c ∈ constraints N W Z' S_W L_Z V →
          holds c (single_site s) = true ↔ name c ≠ ConnectivityEnforcement s)
  ∧ holds (c_ConnectivityEnforcement N s) (single_site s) = false
  ∧ feasible N W Z' S_W L_Z V (single_site s) = false
  ∧ (∀ a, feasible N W Z' S_W L_Z V a = true → 2 ≤ objective N a)
  ∧ (N = 1%nat → solve N W Z' S_W L_Z V = (Infeasible, None)).
Proof.
  intros N V Hs HS HL.
  assert (∀ a, feasible N W Z' S_W L_Z V a = true → 2 ≤ objective N a) as Htwo.
  { intros a Ha. by eapply feasible_at_least_two. }
  assert (feasible N W Z' S_W L_Z V (single_site s) = false) as Hnot.
  { apply not_true_is_false. intros Ha%Htwo.
    rewrite single_site_objective in Ha by done. lia. }
  split_and!.
  - by apply single_site_binary.
  - intros c. apply single_site_constraints; [done | | |].
    + intros i Hi. unfold coef. by rewrite HS.
    + intros z Hz. unfold coef. by rewrite HL.
    + intros j k. unfold V.
      destruct (build_V_coef_01 coords_j comm_link_range j k); lia.
  - simpl. rewrite single_site_no_links. rewrite decide_True by done. done.
  - done.
  - done.
  - intros HN. apply solve_Infeasible. intros a. apply not_true_is_false.
    intros Ha. pose proof (Htwo a Ha) as H2.
    apply feasible_iff in Ha as (Hx & _). rewrite HN in *.
    unfold objective in H2. cbn in H2. destruct (Hx 0%nat ltac:(lia)); lia.
Qed.

Lemma single_site_violates_degree_witness :
  let coords_j := [P 0 0] in
  feasible 1 1 1 [[1]] [[1]] (build_V coords_j (F 1500)) (single_site 0) = false
  ∧ solve 1 1 1 [[1]] [[1]] (build_V coords_j (F 1500)) = (Infeasible, None).
Proof.
  intros coords_j.
  destruct (single_site_violates_degree coords_j (F 1500) 1 1 [[1]] [[1]] 0)
    as (_ & _ & _ & Hnot & _ & Hinf).
  - simpl. lia.
  - intros i Hi. assert (i = 0%nat) as -> by lia. reflexivity.
  - intros z Hz. assert (z = 0%nat) as -> by lia. reflexivity.
  - split; [exact Hnot | apply Hinf; reflexivity].
Defined.

(** C1, as stated, fails.  Scenario A (one site, one water area in range,
    one rain zone): the deployment of that site with no link is not
    feasible and the status is [Infeasible].  Scenario D (two sites in
    communication range, the first covering both water areas, one rain
    zone): the status is [Optimal] with two turbines, not one. *)
Lemma single_site_scenarios :
  run [P 0 0] [P 0 0] (F 500) (F 1500) 1 [] 800000 1200000 10
  = Some (Outcome Infeasible None)
  ∧ (∃ S_W L_Z V,
       parameter_matrices [P 0 0] [P 0 0] (F 500) (F 1500) 1 []
       = Some (S_W, L_Z, V)
       ∧ mat_get S_W 0 0 = Some 1 ∧ mat_get L_Z 0 0 = Some 1
       ∧ feasible 1 1 1 S_W L_Z V (single_site 0) = false)
  ∧ (∃ rep,
       run [P 0 0; P 1000 0] [P 0 0; P 100 100] (F 500) (F 1500) 1 [0%nat]
         800000 1200000 10
       = Some (Outcome Optimal (Some rep))
       ∧ turbine_count rep = 2).
Proof.
  split_and!.
  - vm_compute. reflexivity.
  - eexists _, _, _. split; [vm_compute; reflexivity|].
    split_and!; vm_compute; reflexivity.
  - eexists. split; [vm_compute; reflexivity|]. reflexivity.
Qed.

(** ** Result interpreter *)

(** C10.  When the notebook ends with status [Optimal], the solver has
    returned a solution for the matrices built from the parameters, and the
    report is computed from that solution: the selected sites are the sites
    whose variable has value 1, the turbine count is their number, and
    capital cost is the count times the unit capital cost, annual operating
    cost the count times the unit operating cost, and total cost of
    ownership the capital cost plus [T] times the annual operating cost,
    all in exact integer arithmetic. *)
Theorem report_costs (coords_j coords_i : list point)
    (water_sensor_range comm_link_range : float64) (num_rain_zones : nat)
    (remaining_assignments : list nat) (C_capex_per_turbine C_opex_per_turbine T : Z)
    (o : outcome) :
  run coords_j coords_i water_sensor_range comm_link_range num_rain_zones
    remaining_assignments C_capex_per_turbine C_opex_per_turbine T = Some o →
  out_status o = Optimal →
  ∃ S_W L_Z V a,
    parameter_matrices coords_j coords_i water_sensor_range comm_link_range
      num_rain_zones remaining_assignments = Some (S_W, L_Z, V)
    ∧ solve (num_locations coords_j) (num_water_areas coords_i) num_rain_zones
        S_W L_Z V = (Optimal, Some a)
    ∧ let sites := filter (λ j, xval a j = 1) (locations (num_locations coords_j)) in
      let count := Z.of_nat (length sites) in
      out_report o
      = Some (Report sites count
                (count * C_capex_per_turbine)
                (count * C_opex_per_turbine)
                (count * C_capex_per_turbine + T * (count * C_opex_per_turbine))
                (filter (λ l, yval a l = 1) (links (num_locations coords_j)))).
Proof.
  intros (S_W & L_Z & V & Hpm & Ho)%run_inv Hst. cbv zeta in Ho. subst o.
  simpl in Hst.
  destruct (solve (num_locations coords_j) (num_water_areas coords_i)
              num_rain_zones S_W L_Z V) as [st sol] eqn:Hsolve.
  simpl in Hst. subst st.
  destruct (solve_Optimal _ _ _ _ _ _ _ Hsolve) as (a & -> & _).
  exists S_W, L_Z, V, a. split; [done|]. split; [done|]. reflexivity.
Qed.

Lemma report_costs_witness :
  ∃ rep,
    run [P 0 0; P 1000 0] [P 0 0; P 1000 0] (F 500) (F 1500) 1 [0%nat]
      800000 1200000 10 = Some (Outcome Optimal (Some rep))
    ∧ turbine_count rep = Z.of_nat (length (selected_sites rep))
    ∧ final_capex rep = turbine_count rep * 800000
    ∧ final_opex_annual rep = turbine_count rep * 1200000
    ∧ final_total_cost rep = final_capex rep + 10 * final_opex_annual rep.
Proof.
  destruct (report_costs [P 0 0; P 1000 0] [P 0 0; P 1000 0] (F 500) (F 1500) 1
              [0%nat] 800000 1200000 10
              (Outcome Optimal
                 (Some (Report [0; 1]%nat 2 1600000 2400000 25600000 [(0, 1)%nat]))))
    as (S_W & L_Z & V & a & _ & _ & Hrep).
  - vm_compute. reflexivity.
  - reflexivity.
  - cbv zeta in Hrep. simpl out_report in Hrep. injection Hrep as Hs Hc H1 H2 H3 _.
    eexists. split; [vm_compute; reflexivity|]. cbn [turbine_count selected_sites
      final_capex final_opex_annual final_total_cost].
    rewrite H1, H2, H3, Hc, Hs. split_and!; [done | done | done |].
    rewrite <- H1, <- H2. done.
Defined.

(** * Further properties of the notebook *)

(** ** Coverage matrix and repair pass *)

(** X1.  The coverage matrix of lines 35-40 has one row per water area and
    one column per site, and its entry for area [i] and site [j] is 1 when
    the distance of the area and the site, as computed in binary64,
    compares at most the sensor range, and 0 otherwise: also 0 when the
    computed distance has overflowed to infinity or is NaN. *)
Theorem coverage_matrix_spec (coords_j coords_i : list point)
    (water_sensor_range : float64) (i j : nat) :
  let S_W := build_S_W coords_j coords_i water_sensor_range in
  has_shape (num_water_areas coords_i) (num_locations coords_j) S_W
  ∧ mat_get S_W i j
    = if decide (i < num_water_areas coords_i ∧ j < num_locations coords_j)%nat
      then Some (if decide (fleb (distance64 (coords_i !!! i) (coords_j !!! j))
                                 water_sensor_range = true)
                 then 1 else 0)
      else None.
Proof. split; [apply build_S_W_shape | apply build_S_W_get]. Qed.

(** A site farther away than binary64 can represent is not covered by any
    range, an infinite one apart. *)
Example coverage_overflow :
  build_S_W [(F2 1 600, F 0)] [P 0 0] (F2 1 700) = [[0]]
  ∧ distance64 (P 0 0) (F2 1 600, F 0) = S754_infinity false.
Proof. split; vm_compute; reflexivity. Qed.

Section RepairCases.
Variables coords_j coords_i : list point.
Let N := num_locations coords_j.
Let W := num_water_areas coords_i.

(** The two ways an iteration of the repair loop can end well. *)
Lemma repair_vec_cases (i : nat) (row row' : list Z) :
  repair_vec coords_j coords_i i row = Some row' →
  (sumZ row ≠ 0 ∧ row' = row)
  ∨ (sumZ row = 0
     ∧ ∃ c, argmin (distances coords_j coords_i i) = Some c
            ∧ (c < N)%nat ∧ (c < length row)%nat
            ∧ row' = <[c := 1]> row).
Proof.
  unfold repair_vec. destruct (sumZ row =? 0) eqn:Hsum.
  - apply Z.eqb_eq in Hsum.
    destruct (argmin (distances coords_j coords_i i)) as [c|] eqn:Hc;
      simpl; [|done].
    case_decide as Hlen; [|done]. intros [= <-]. right. split; [done|].
    exists c. split_and!; [done | | done | done].
    by eapply argmin_distances_lt.
  - apply Z.eqb_neq in Hsum. intros [= <-]. by left.
Qed.

Lemma repair_vec_is_Some (i : nat) (row : list Z) :
  (0 < N)%nat → length row = N → is_Some (repair_vec coords_j coords_i i row).
Proof.
  intros HN Hlen. unfold repair_vec. destruct (sumZ row =? 0); [|by eexists].
  destruct (argmin_distances_Some coords_j coords_i i HN) as [c Hc].
  pose proof (argmin_distances_lt _ _ _ _ Hc) as HcN.
  rewrite Hc. simpl. rewrite decide_True; [by eexists|]. by rewrite Hlen.
Qed.

(** Cell by cell: the pass keeps every entry, except that in a
    water-area row of sum zero the entry at the index [np.argmin]
    returns becomes 1. *)
Lemma repair_cells (S_W S_W' : matrix) (i j : nat) (v : Z) :
  repair coords_j coords_i S_W = Some S_W' →
  mat_get S_W i j = Some v →
  ((i < W)%nat ∧ row_sum S_W i = Some 0 →
   ∃ c, argmin (distances coords_j coords_i i) = Some c
        ∧ mat_get S_W' i j = Some (if decide (j = c) then 1 else v))
  ∧ (¬ ((i < W)%nat ∧ row_sum S_W i = Some 0) → mat_get S_W' i j = Some v).
Proof.
  intros (_ & Hge & Hlt)%repair_inv Hv.
  destruct (decide (i < W)%nat) as [Hi|Hi].
  - destruct (Hlt i Hi) as (row & row' & Hrow & Hvec & Hrow').
    unfold mat_get, row_sum in *. rewrite Hrow in Hv |- *. rewrite Hrow'.
    simpl in *.
    apply repair_vec_cases in Hvec
      as [[Hsum ->]|(Hsum & c & Hc & _ & Hlen & ->)].
    + split; [|done]. intros [_ [= Hz]]. done.
    + split; [|intros []; split; [done | by rewrite Hsum]].
      intros _. exists c. split; [done|].
      destruct (decide (j = c)) as [->|Hne].
      * by rewrite list_lookup_insert_eq.
      * by rewrite list_lookup_insert_ne.
  - split; [intros [? _]; done|]. intros _.
    unfold mat_get in *. rewrite Hge by (fold W; lia). done.
Qed.

Lemma repair_shape (r c : nat) (S_W S_W' : matrix) :
  repair coords_j coords_i S_W = Some S_W' →
  has_shape r c S_W → has_shape r c S_W'.
Proof.
  intros (Hlen & Hge & Hlt)%repair_inv [Hr Hc]. split; [lia|].
  apply Forall_lookup. intros i row' Hrow'.
  rewrite Forall_lookup in Hc.
  destruct (decide (i < W)%nat) as [Hi|Hi].
  - destruct (Hlt i Hi) as (row & row'' & Hrow & Hvec & Hrow'').
    rewrite Hrow' in Hrow''. injection Hrow'' as <-.
    apply repair_vec_cases in Hvec as [[_ ->]|(_ & c' & _ & _ & _ & ->)].
    + by eapply Hc.
    + rewrite length_insert. by eapply Hc.
  - rewrite Hge in Hrow' by (fold W; lia). by eapply Hc.
Qed.

Lemma repair_total (S_W : matrix) :
  has_shape W N S_W → (0 < N)%nat → is_Some (repair coords_j coords_i S_W).
Proof.
  intros Hshape HN. rewrite repair_rows. apply row_loop_total. intros i Hi.
  destruct (has_shape_row W N i S_W Hshape Hi) as (row & Hrow & Hlen).
  exists row. split; [done|]. by apply repair_vec_is_Some.
Qed.

Lemma repair_no_sites (S_W : matrix) :
  has_shape W N S_W → N = 0%nat → (0 < W)%nat →
  repair coords_j coords_i S_W = None.
Proof.
  intros Hshape HN HW.
  destruct (has_shape_row W N 0 S_W Hshape HW) as (row & Hrow & Hlen).
  rewrite HN in Hlen. apply nil_length_inv in Hlen as ->.
  assert (repair_row coords_j coords_i 0 S_W = None) as Hfirst.
  { unfold repair_row, row_sum. rewrite Hrow. simpl.
    by rewrite argmin_distances_None. }
  unfold repair. fold W. unfold range.
  replace (W - 0)%nat with (S (W - 1)) by lia.
  cbn [seq for_each_opt]. by rewrite Hfirst.
Qed.
End RepairCases.

(** X2.  On an array with one row per water area and one column per site,
    the repair pass raises exactly when there is no candidate site but at
    least one water area ([np.argmin] of an empty list). *)
Theorem repair_fails_iff (coords_j coords_i : list point) (S_W : matrix) :
  has_shape (num_water_areas coords_i) (num_locations coords_j) S_W →
  repair coords_j coords_i S_W = None
  ↔ num_locations coords_j = 0%nat ∧ (0 < num_water_areas coords_i)%nat.
Proof.
  intros Hshape. split.
  - intros Hnone.
    destruct (decide (0 < num_locations coords_j)%nat) as [HN|HN].
    { destruct (repair_total _ _ _ Hshape HN) as [S' HS']. congruence. }
    destruct (decide (0 < num_water_areas coords_i)%nat) as [HW|HW]; [lia|].
    unfold repair in Hnone.
    rewrite range_empty in Hnone by lia. done.
  - intros [HN HW]. by apply repair_no_sites.
Qed.

Lemma repair_fails_iff_witness :
  has_shape (num_water_areas [P 0 0]) (num_locations []) [[]]
  ∧ (repair [] [P 0 0] [[]] = None
     ↔ num_locations [] = 0%nat ∧ (0 < num_water_areas [P 0 0])%nat).
Proof.
  assert (has_shape (num_water_areas [P 0 0]) (num_locations []) [[]]) as H.
  { split; [reflexivity | repeat constructor]. }
  split; [exact H | exact (repair_fails_iff [] [P 0 0] [[]] H)].
Defined.

(** X3.  The repair pass keeps the shape of the array.  With finite
    coordinates it changes an entry only in a water-area row of sum zero:
    there the entry of the site at the least computed distance (lowest
    index among the sites at that distance) becomes 1 and every other
    entry keeps its value; in every other row all entries keep their
    values. *)
Theorem repair_only_sets_nearest (coords_j coords_i : list point)
    (S_W S_W' : matrix) (r c i j : nat) (v : Z) :
  Forall finite_point coords_j → Forall finite_point coords_i →
  repair coords_j coords_i S_W = Some S_W' →
  (has_shape r c S_W → has_shape r c S_W')
  ∧ (mat_get S_W i j = Some v →
     ((i < num_water_areas coords_i)%nat ∧ row_sum S_W i = Some 0 →
      ∃ n, closest_site coords_j coords_i i n
           ∧ mat_get S_W' i j = Some (if decide (j = n) then 1 else v))
     ∧ (¬ ((i < num_water_areas coords_i)%nat ∧ row_sum S_W i = Some 0) →
        mat_get S_W' i j = Some v)).
Proof.
  intros Hfj Hfi Hrep. split; [by eapply repair_shape|]. intros Hv.
  destruct (repair_cells _ _ _ _ _ _ _ Hrep Hv) as [Hzero Hother].
  split; [|done]. intros Hrow. destruct (Hzero Hrow) as (n & Hn & Hcell).
  exists n. split; [|done]. by apply argmin_distances_closest.
Qed.

Lemma repair_only_sets_nearest_witness :
  let coords_j := [P 0 0; P 3 4] in
  let coords_i := [P 0 1; P 9 9] in
  Forall finite_point coords_j ∧ Forall finite_point coords_i
  ∧ repair coords_j coords_i [[1; 0]; [0; 0]] = Some [[1; 0]; [0; 1]]
  ∧ ∃ n, closest_site coords_j coords_i 1 n
         ∧ mat_get [[1; 0]; [0; 1]] 1 1 = Some (if decide (1%nat = n) then 1 else 0).
Proof.
  intros coords_j coords_i.
  assert (Forall finite_point coords_j) as Hj by (by repeat constructor).
  assert (Forall finite_point coords_i) as Hi by (by repeat constructor).
  assert (repair coords_j coords_i [[1; 0]; [0; 0]] = Some [[1; 0]; [0; 1]])
    as Hrep by (vm_compute; reflexivity).
  split_and!; [exact Hj | exact Hi | exact Hrep |].
  destruct (repair_only_sets_nearest coords_j coords_i _ _ 2 2 1 1 0 Hj Hi Hrep)
    as [_ Hcell].
  destruct (Hcell eq_refl) as [Hzero _]. apply Hzero.
  split; [simpl; lia | reflexivity].
Defined.

(** X4.  When every water-area row already has a non-zero sum, the repair
    pass returns the array unchanged (also when there is no site at all). *)
Theorem repair_noop_when_covered (coords_j coords_i : list point) (S_W : matrix) :
  (∀ i, (i < num_water_areas coords_i)%nat →
        ∃ row, S_W !! i = Some row ∧ sumZ row ≠ 0) →
  repair coords_j coords_i S_W = Some S_W.
Proof.
  intros Hrows. rewrite repair_rows. apply row_loop_fixed. intros i Hi.
  destruct (Hrows i Hi) as (row & Hrow & Hsum). exists row. split; [done|].
  unfold repair_vec. apply Z.eqb_neq in Hsum. by rewrite Hsum.
Qed.

Lemma repair_noop_when_covered_witness :
  repair [] [P 0 0; P 5 5] [[1; 0]; [0; 1]] = Some [[1; 0]; [0; 1]].
Proof.
  apply (repair_noop_when_covered [] [P 0 0; P 5 5] [[1; 0]; [0; 1]]).
  intros i Hi. simpl in Hi.
  destruct i as [|[|i]]; [| |lia]; eexists; (split; [reflexivity | done]).
Defined.

(** ** Shapes and entries of the parameter matrices *)

Lemma zeros_binary (r c : nat) : binary_matrix (zeros r c).
Proof.
  unfold binary_matrix, zeros. apply Forall_replicate, Forall_replicate. by left.
Qed.

Lemma mat_set_binary (m : matrix) (i j : nat) (v : Z) :
  v = 0 ∨ v = 1 → binary_matrix m → binary_matrix (mat_set m i j v).
Proof.
  intros Hv Hm. unfold binary_matrix, mat_set in *.
  apply Forall_lookup. intros k row. rewrite list_lookup_alter.
  rewrite Forall_lookup in Hm. case_decide as Hik; [|by apply Hm].
  subst k. destruct (m !! i) as [row0|] eqn:Hrow; simpl; [|done].
  intros [= <-]. apply Forall_insert; [by eapply Hm | done].
Qed.

Lemma binary_matrix_get (m : matrix) (i j : nat) (v : Z) :
  binary_matrix m → mat_get m i j = Some v → v = 0 ∨ v = 1.
Proof.
  intros Hm (row & Hrow & Hv)%mat_get_Some_lt.
  unfold binary_matrix in Hm. rewrite Forall_lookup in Hm.
  specialize (Hm i row Hrow). rewrite Forall_lookup in Hm. by eapply Hm.
Qed.

Lemma binary_matrix_coef (m : matrix) (i j : nat) :
  binary_matrix m → coef m i j = 0 ∨ coef m i j = 1.
Proof.
  intros Hm. unfold coef. destruct (mat_get m i j) as [v|] eqn:Hv; simpl.
  - by eapply binary_matrix_get.
  - by left.
Qed.

(** A loop that may raise keeps what each of its iterations keeps. *)
Lemma for_each_opt_preserve {A S : Type} (P : S → Prop)
    (body : A → S → option S) (l : list A) (s s' : S) :
  (∀ a s0 s1, P s0 → body a s0 = Some s1 → P s1) →
  P s → for_each_opt body l s = Some s' → P s'.
Proof.
  intros Hbody. revert s. induction l as [|a l IH]; intros s Hs; simpl.
  - by intros [= <-].
  - destruct (body a s) as [s1|] eqn:Hs1; simpl; [|done].
    apply IH. by eapply Hbody.
Qed.

Lemma build_V_shape_binary (coords_j : list point) (comm_link_range : float64) :
  has_shape (num_locations coords_j) (num_locations coords_j)
    (build_V coords_j comm_link_range)
  ∧ binary_matrix (build_V coords_j comm_link_range).
Proof.
  unfold build_V. set (N := num_locations coords_j).
  apply (for_range_inv (λ _ m, has_shape N N m ∧ binary_matrix m)).
  - lia.
  - split; [apply zeros_shape | apply zeros_binary].
  - intros j m Hj Hm.
    apply (for_range_inv (λ _ m, has_shape N N m ∧ binary_matrix m));
      [lia | done |].
    intros k m' _ [Hs Hb]. cbv zeta. destruct (dist_le_range _ _); [|done].
    split.
    + by do 2 apply mat_set_shape.
    + do 2 (apply mat_set_binary; [by right|]). done.
Qed.

Section Shapes.
Variables coords_j coords_i : list point.
Variables water_sensor_range comm_link_range : float64.
Variable num_rain_zones : nat.
Variable remaining_assignments : list nat.
Let N := num_locations coords_j.
Let W := num_water_areas coords_i.

Lemma build_S_W_binary :
  binary_matrix (build_S_W coords_j coords_i water_sensor_range).
Proof.
  apply Forall_lookup. intros i row Hrow. by eapply build_S_W_row_01.
Qed.

Lemma build_L_Z_shape_binary (L_Z : matrix) :
  build_L_Z coords_j num_rain_zones remaining_assignments = Some L_Z →
  has_shape num_rain_zones N L_Z ∧ binary_matrix L_Z.
Proof.
  unfold build_L_Z. fold N.
  destruct (for_each_opt _ (range 0 num_rain_zones) _) as [L0|] eqn:HL0;
    simpl; [|done].
  intros HL.
  assert (∀ m m' i j,
            has_shape num_rain_zones N m ∧ binary_matrix m →
            mat_set_checked m i j 1 = Some m' →
            has_shape num_rain_zones N m' ∧ binary_matrix m') as Hset.
  { intros m m' i j [Hs Hb] [-> _]%mat_set_checked_inv.
    split; [by apply mat_set_shape | apply mat_set_binary; [by right | done]]. }
  set (P := λ m : matrix, has_shape num_rain_zones N m ∧ binary_matrix m).
  assert (P L0) as HP0.
  { apply (for_each_opt_preserve P _ _ _ _ (λ i m m', Hset m m' i i)) in HL0;
      [done|].
    split; [apply zeros_shape | apply zeros_binary]. }
  apply (for_each_opt_preserve P) in HL; [done | | done].
  intros [i z] m m'. apply Hset.
Qed.

Lemma repair_binary (S_W S_W' : matrix) :
  repair coords_j coords_i S_W = Some S_W' →
  binary_matrix S_W → binary_matrix S_W'.
Proof.
  intros (_ & Hge & Hlt)%repair_inv Hb. unfold binary_matrix in *.
  apply Forall_lookup. intros i row' Hrow'. rewrite Forall_lookup in Hb.
  destruct (decide (i < W)%nat) as [Hi|Hi].
  - destruct (Hlt i Hi) as (row & row'' & Hrow & Hvec & Hrow'').
    rewrite Hrow' in Hrow''. injection Hrow'' as <-.
    apply repair_vec_cases in Hvec as [[_ ->]|(_ & c' & _ & _ & _ & ->)].
    + by eapply Hb.
    + apply Forall_insert; [by eapply Hb | by right].
  - rewrite Hge in Hrow' by (fold W; lia). by eapply Hb.
Qed.

Lemma parameter_matrices_inv (S_W L_Z V : matrix) :
  parameter_matrices coords_j coords_i water_sensor_range comm_link_range
    num_rain_zones remaining_assignments = Some (S_W, L_Z, V) →
  repair coords_j coords_i (build_S_W coords_j coords_i water_sensor_range)
  = Some S_W
  ∧ build_L_Z coords_j num_rain_zones remaining_assignments = Some L_Z
  ∧ V = build_V coords_j comm_link_range.
Proof.
  unfold parameter_matrices.
  destruct (repair _ _ _) as [S|]; simpl; [|done].
  destruct (build_L_Z _ _ _) as [L|]; simpl; [|done].
  by intros [= <- <- <-].
Qed.
End Shapes.

(** X5.  Under the contract of [np.random.randint] for the drawn vector,
    building the zone matrix raises exactly when there are more rain zones
    than candidate sites (the seeding loop of lines 54-55 leaves the
    array). *)
Theorem zone_matrix_fails_iff (coords_j : list point) (num_rain_zones : nat)
    (remaining_assignments : list nat) :
  length remaining_assignments = (num_locations coords_j - num_rain_zones)%nat →
  Forall (λ z, (z < num_rain_zones)%nat) remaining_assignments →
  build_L_Z coords_j num_rain_zones remaining_assignments = None
  ↔ (num_locations coords_j < num_rain_zones)%nat.
Proof.
  intros Hlen Hlt. split.
  - intros Hnone.
    destruct (decide (num_rain_zones ≤ num_locations coords_j)%nat) as [Hle|]; [|lia].
    destruct (build_L_Z_cells coords_j num_rain_zones remaining_assignments
                Hle Hlen Hlt) as (L_Z & HL & _).
    congruence.
  - apply build_L_Z_more_zones_than_sites.
Qed.

Lemma zone_matrix_fails_iff_witness :
  build_L_Z [P 0 0] 2 [] = None ↔ (num_locations [P 0 0] < 2)%nat.
Proof.
  apply (zone_matrix_fails_iff [P 0 0] 2 []).
  - reflexivity.
  - constructor.
Defined.

Lemma parameter_matrices_shapes_aux (coords_j coords_i : list point)
    (water_sensor_range comm_link_range : float64) (num_rain_zones : nat)
    (remaining_assignments : list nat) (S_W L_Z V : matrix) :
  parameter_matrices coords_j coords_i water_sensor_range comm_link_range
    num_rain_zones remaining_assignments = Some (S_W, L_Z, V) →
  has_shape (num_water_areas coords_i) (num_locations coords_j) S_W
  ∧ has_shape num_rain_zones (num_locations coords_j) L_Z
  ∧ binary_matrix S_W ∧ binary_matrix L_Z.
Proof.
  intros (HS & HL & ->)%parameter_matrices_inv.
  destruct (build_L_Z_shape_binary _ _ _ _ HL) as [HLs HLb].
  split_and!; try done.
  - eapply repair_shape; [exact HS | apply build_S_W_shape].
  - eapply repair_binary; [exact HS | apply build_S_W_binary].
Qed.

(** X6.  Whenever the pre-processing of lines 35-68 ends without raising,
    the coverage matrix has one row per water area, the zone matrix one row
    per rain zone, the connectivity matrix one row per site, each has one
    column per site, and every entry is 0 or 1. *)
Theorem parameter_matrices_shapes (coords_j coords_i : list point)
    (water_sensor_range comm_link_range : float64) (num_rain_zones : nat)
    (remaining_assignments : list nat) (S_W L_Z V : matrix) :
  parameter_matrices coords_j coords_i water_sensor_range comm_link_range
    num_rain_zones remaining_assignments = Some (S_W, L_Z, V) →
  has_shape (num_water_areas coords_i) (num_locations coords_j) S_W
  ∧ has_shape num_rain_zones (num_locations coords_j) L_Z
  ∧ has_shape (num_locations coords_j) (num_locations coords_j) V
  ∧ binary_matrix S_W ∧ binary_matrix L_Z ∧ binary_matrix V.
Proof.
  intros Hpm.
  destruct (parameter_matrices_shapes_aux _ _ _ _ _ _ _ _ _ Hpm)
    as (HSs & HLs & HSb & HLb).
  apply parameter_matrices_inv in Hpm as (_ & _ & ->).
  destruct (build_V_shape_binary coords_j comm_link_range) as [HVs HVb].
  by split_and!.
Qed.

Lemma parameter_matrices_shapes_witness :
  let coords_j := [P 0 0; P 1000 0] in
  let coords_i := [P 0 0; P 100 100] in
  has_shape (num_water_areas coords_i) (num_locations coords_j) [[1; 0]; [1; 0]]
  ∧ has_shape 1 (num_locations coords_j) [[1; 1]]
  ∧ has_shape (num_locations coords_j) (num_locations coords_j) [[0; 1]; [1; 0]]
  ∧ binary_matrix [[1; 0]; [1; 0]] ∧ binary_matrix [[1; 1]]
  ∧ binary_matrix [[0; 1]; [1; 0]].
Proof.
  intros coords_j coords_i.
  apply (parameter_matrices_shapes coords_j coords_i (F 500) (F 1500) 1 [0%nat]).
  vm_compute. reflexivity.
Defined.

(** X7.  Under the contract of [np.random.randint] for the drawn vector,
    the pre-processing of lines 35-68 ends without raising exactly when
    there is a candidate site or no water area, and there are at least as
    many sites as rain zones. *)
Theorem parameter_matrices_succeed_iff (coords_j coords_i : list point)
    (water_sensor_range comm_link_range : float64) (num_rain_zones : nat)
    (remaining_assignments : list nat) :
  length remaining_assignments = (num_locations coords_j - num_rain_zones)%nat →
  Forall (λ z, (z < num_rain_zones)%nat) remaining_assignments →
  is_Some (parameter_matrices coords_j coords_i water_sensor_range
             comm_link_range num_rain_zones remaining_assignments)
  ↔ ((0 < num_locations coords_j)%nat ∨ num_water_areas coords_i = 0%nat)
    ∧ (num_rain_zones ≤ num_locations coords_j)%nat.
Proof.
  intros Hlen Hlt. unfold parameter_matrices.
  pose proof (build_S_W_shape coords_j coords_i water_sensor_range) as Hshape.
  split.
  - intros [[[S_W L_Z] V] Hpm].
    destruct (repair _ _ _) as [S|] eqn:HS; simpl in Hpm; [|done].
    destruct (build_L_Z _ _ _) as [L|] eqn:HL; simpl in Hpm; [|done].
    split.
    + destruct (decide (0 < num_locations coords_j)%nat) as [|HN]; [by left|].
      destruct (decide (num_water_areas coords_i = 0%nat)) as [|HW]; [by right|].
      rewrite repair_no_sites in HS; [done | done | lia | lia].
    + destruct (decide (num_rain_zones ≤ num_locations coords_j)%nat) as [|Hn];
        [done|].
      rewrite build_L_Z_more_zones_than_sites in HL; [done | lia].
  - intros [HNW Hle].
    destruct (build_L_Z_cells coords_j num_rain_zones remaining_assignments
                Hle Hlen Hlt) as (L_Z & -> & _).
    assert (is_Some (repair coords_j coords_i
                       (build_S_W coords_j coords_i water_sensor_range)))
      as [S_W ->].
    { destruct HNW as [HN|HW]; [by apply repair_total|].
      unfold repair. rewrite HW. by eexists. }
    simpl. by eexists.
Qed.

Lemma parameter_matrices_succeed_iff_witness :
  is_Some (parameter_matrices [P 0 0; P 1000 0] [P 0 0] (F 500) (F 1500) 1 [0%nat])
  ↔ ((0 < num_locations [P 0 0; P 1000 0])%nat
     ∨ num_water_areas [P 0 0] = 0%nat)
    ∧ (1 ≤ num_locations [P 0 0; P 1000 0])%nat.
Proof.
  apply (parameter_matrices_succeed_iff [P 0 0; P 1000 0] [P 0 0]
           (F 500) (F 1500) 1 [0%nat]).
  - reflexivity.
  - repeat constructor.
Defined.

(** ** Links and size of the model *)

Lemma lpSum_const_one {A : Type} (l : list A) :
  lpSum (λ _, 1) l = Z.of_nat (length l).
Proof.
  induction l as [|a l IH]; [done|]. rewrite lpSum_cons, IH. simpl length. lia.
Qed.

(** Number of sites above [j] among the first [n]. *)
Lemma count_above (j n : nat) :
  lpSum (λ k, if decide (j < k)%nat then 1 else 0) (range 0 n)
  = Z.of_nat (n - S j).
Proof.
  induction n as [|n IH]; [done|].
  rewrite range_snoc, lpSum_app, IH by lia.
  rewrite lpSum_cons, lpSum_nil. case_decide; lia.
Qed.

Lemma sum_count_above (n m : nat) :
  (m ≤ n)%nat →
  2 * lpSum (λ j, Z.of_nat (n - S j)) (range 0 m)
  = Z.of_nat m * (2 * Z.of_nat n - Z.of_nat m - 1).
Proof.
  induction m as [|m IH]; intros Hm; [done|].
  rewrite range_snoc, lpSum_app by lia.
  rewrite lpSum_cons, lpSum_nil. specialize (IH ltac:(lia)). nia.
Qed.

Lemma links_NoDup (N : nat) : NoDup (links N).
Proof.
  assert (∀ j k (l : nat * nat),
            l ∈ (if decide (j < k)%nat then [(j, k)] else []) → l = (j, k))
    as Hcell.
  { intros j k l Hl. destruct (decide (j < k)%nat).
    - by apply list_elem_of_singleton in Hl.
    - by apply elem_of_nil in Hl. }
  unfold links. apply NoDup_bind.
  - intros j1 j2 l _ _ H1 H2.
    apply list_elem_of_bind in H1 as (k1 & H1%Hcell & _).
    apply list_elem_of_bind in H2 as (k2 & H2%Hcell & _). congruence.
  - intros j _. apply NoDup_bind.
    + intros k1 k2 l _ _ H1%Hcell H2%Hcell. congruence.
    + intros k _. case_decide; [apply NoDup_singleton | apply NoDup_nil_2].
    + apply NoDup_seq.
  - apply NoDup_seq.
Qed.

Lemma links_length (N : nat) : (2 * length (links N) = N * (N - 1))%nat.
Proof.
  pose proof (lpSum_links N (Assignment (λ _, 0) (λ _, 1))) as Hsum.
  simpl in Hsum. rewrite lpSum_const_one in Hsum.
  rewrite (lpSum_ext _ (λ j, Z.of_nat (N - S j))) in Hsum
    by (intros j _; apply count_above).
  pose proof (sum_count_above N N ltac:(lia)) as Htri.
  unfold locations in Hsum. nia.
Qed.

(** X8.  The list of links of line 79 holds every pair [(j, k)] of site
    indices with [j < k] exactly once, which makes [N * (N - 1) / 2]
    links for [N] sites. *)
Theorem links_spec (N : nat) :
  NoDup (links N)
  ∧ (∀ j k, (j, k) ∈ links N ↔ (j < k < N)%nat)
  ∧ (2 * length (links N) = N * (N - 1))%nat.
Proof.
  split_and!; [apply links_NoDup | apply elem_of_links | apply links_length].
Qed.

(** X9.  The degree expression of lines 115-117 counts every link at both
    of its endpoints: summed over all sites it is twice the number of
    active links, for any values of the variables. *)
Theorem degree_sum_twice_links (N : nat) (a : assignment) :
  lpSum (total_links_for N a) (locations N) = 2 * lpSum (yval a) (links N).
Proof. apply degree_sum. Qed.

(** X10.  The assembled model of lines 94-120 has one tree-size
    constraint, one coverage constraint per water area, one per rain zone,
    an activation and a line-of-sight constraint per link, and one degree
    constraint per site. *)
Theorem constraints_length (N W Z' : nat) (S_W L_Z V : matrix) :
  length (constraints N W Z' S_W L_Z V) = (1 + W + Z' + N * (N - 1) + N)%nat.
Proof.
  unfold constraints.
  rewrite !length_app, !length_fmap. unfold locations. rewrite !length_range.
  assert (∀ l : list (nat * nat),
            length (l ≫= λ l0, [c_LinkActivation l0; c_LineOfSight V l0])
            = (2 * length l)%nat) as Hbind.
  { induction l as [|x l IH]; [done|]. rewrite bind_cons, length_app, IH.
    simpl. lia. }
  rewrite Hbind. pose proof (links_length N). simpl. lia.
Qed.

(** ** What a feasible assignment guarantees *)

Lemma lpSum_pos_exists {A : Type} (f : A → Z) (l : list A) :
  1 ≤ lpSum f l → ∃ a, a ∈ l ∧ f a ≠ 0.
Proof.
  induction l as [|a l IH]; [rewrite lpSum_nil; lia|].
  rewrite lpSum_cons. intros Hsum.
  destruct (decide (f a = 0)) as [H0|Hne].
  - destruct IH as (b & Hb & Hfb); [lia|]. exists b. split; [by right | done].
  - exists a. split; [by left | done].
Qed.

Lemma lpSum_ge_term {A : Type} (f : A → Z) (l : list A) (a : A) :
  (∀ b, b ∈ l → 0 ≤ f b) → a ∈ l → f a ≤ lpSum f l.
Proof.
  induction l as [|b l IH]; intros Hnn Ha; [by apply elem_of_nil in Ha|].
  rewrite lpSum_cons.
  assert (0 ≤ f b) by (apply Hnn; by left).
  assert (0 ≤ lpSum f l).
  { rewrite <- (lpSum_zero (λ _, 0) l) by done.
    apply lpSum_le. intros c Hc. apply Hnn. by right. }
  apply elem_of_cons in Ha as [->|Ha]; [lia|].
  specialize (IH ltac:(intros c Hc; apply Hnn; by right) Ha). lia.
Qed.

Lemma coef_Some (m : matrix) (i j : nat) :
  coef m i j ≠ 0 → ∃ v, mat_get m i j = Some v ∧ v ≠ 0.
Proof.
  unfold coef. destruct (mat_get m i j) as [v|]; simpl; [eauto | done].
Qed.

(** A coverage constraint holds only if some selected site has a non-zero
    coefficient in its row. *)
Lemma covered_by_selected (N : nat) (m : matrix) (a : assignment) (i : nat) :
  (∀ j, (j < N)%nat → xval a j = 0 ∨ xval a j = 1) →
  1 ≤ lpSum (λ j, coef m i j * xval a j) (locations N) →
  ∃ j, (j < N)%nat ∧ xval a j = 1 ∧ coef m i j ≠ 0.
Proof.
  intros Hbin (j & Hj%elem_of_locations & Hterm)%lpSum_pos_exists.
  exists j. destruct (Hbin j Hj) as [H0|H1]; [rewrite H0 in Hterm; lia|].
  split_and!; [done | done |]. intros Hc. rewrite Hc in Hterm. lia.
Qed.

(** X11.  In a feasible assignment of the model built by the notebook
    from finite coordinates, every water area has a selected site whose
    computed distance to the area compares at most the sensor range, or
    which is the site at the least computed distance (the one forced by
    the repair pass). *)
Theorem water_area_has_selected_site (coords_j coords_i : list point)
    (water_sensor_range comm_link_range : float64) (num_rain_zones : nat)
    (remaining_assignments : list nat) (S_W L_Z V : matrix)
    (a : assignment) (i : nat) :
  Forall finite_point coords_j → Forall finite_point coords_i →
  parameter_matrices coords_j coords_i water_sensor_range comm_link_range
    num_rain_zones remaining_assignments = Some (S_W, L_Z, V) →
  feasible (num_locations coords_j) (num_water_areas coords_i) num_rain_zones
    S_W L_Z V a = true →
  (i < num_water_areas coords_i)%nat →
  ∃ j, (j < num_locations coords_j)%nat ∧ xval a j = 1
       ∧ (fleb (distance64 (coords_i !!! i) (coords_j !!! j))
               water_sensor_range = true
          ∨ closest_site coords_j coords_i i j).
Proof.
  intros Hfj Hfi (HS & _ & _)%parameter_matrices_inv
         (Hx & _ & _ & Hw & _)%feasible_iff Hi.
  destruct (covered_by_selected _ _ _ _ Hx (Hw i Hi)) as (j & Hj & Hxj & Hc).
  exists j. split_and!; [done | done |].
  apply coef_Some in Hc as (v & Hv & Hv0).
  pose proof (build_S_W_get coords_j coords_i water_sensor_range i j) as H0.
  rewrite decide_True in H0 by done.
  destruct (repair_cells _ _ _ _ _ _ _ HS H0) as [Hzero Hother].
  destruct (decide ((i < num_water_areas coords_i)%nat
                    ∧ row_sum (build_S_W coords_j coords_i water_sensor_range) i
                      = Some 0)) as [Hrow|Hrow].
  - destruct (Hzero Hrow) as (c & Hc & Hcell).
    destruct (decide (j = c)) as [->|Hne].
    + right. by apply argmin_distances_closest.
    + left. rewrite Hv in Hcell. simpl in Hcell. injection Hcell as ->.
      by destruct (decide (covers coords_j coords_i water_sensor_range i j)).
  - left. rewrite (Hother Hrow) in Hv. injection Hv as <-.
    by destruct (decide (covers coords_j coords_i water_sensor_range i j)).
Qed.

Lemma water_area_has_selected_site_witness :
  let coords_j := [P 0 0; P 1000 0] in
  let coords_i := [P 0 0; P 1000 0] in
  ∃ j, (j < num_locations coords_j)%nat
       ∧ xval (Assignment (λ _, 1) (λ _, 1)) j = 1
       ∧ (fleb (distance64 (coords_i !!! 1%nat) (coords_j !!! j)) (F 500) = true
          ∨ closest_site coords_j coords_i 1 j).
Proof.
  intros coords_j coords_i.
  apply (water_area_has_selected_site coords_j coords_i (F 500) (F 1500) 1 [0%nat]
           [[1; 0]; [0; 1]] [[1; 1]] [[0; 1]; [1; 0]]).
  - by repeat constructor.
  - by repeat constructor.
  - vm_compute. reflexivity.
  - vm_compute. reflexivity.
  - simpl. lia.
Defined.

Section ZoneFacts.
Variable coords_j : list point.
Variable num_rain_zones : nat.
Variable remaining_assignments : list nat.
Variable L_Z : matrix.
Let N := num_locations coords_j.

Hypothesis remaining_length :
  length remaining_assignments = (N - num_rain_zones)%nat.
Hypothesis remaining_lt :
  Forall (λ z, (z < num_rain_zones)%nat) remaining_assignments.
Hypothesis L_Z_built :
  build_L_Z coords_j num_rain_zones remaining_assignments = Some L_Z.

Lemma built_zones_le_sites : (num_rain_zones ≤ N)%nat.
Proof.
  destruct (decide (num_rain_zones ≤ N)%nat) as [|Hn]; [done|].
  rewrite build_L_Z_more_zones_than_sites in L_Z_built; [done | fold N; lia].
Qed.

(** The coefficient of site [j] in the row of zone [z]. *)
Lemma built_zone_coef (z j : nat) :
  (z < num_rain_zones)%nat → (j < N)%nat →
  coef L_Z z j
  = if decide (z = zone_of num_rain_zones remaining_assignments j)
    then 1 else 0.
Proof.
  intros Hz Hj.
  destruct (build_L_Z_cells coords_j num_rain_zones remaining_assignments
              built_zones_le_sites remaining_length remaining_lt)
    as (L & HL & _ & Hcells).
  rewrite L_Z_built in HL. injection HL as <-.
  unfold coef. rewrite Hcells. by rewrite decide_True.
Qed.

(** Every site is counted in exactly one zone row. *)
Lemma zone_rows_sum (a : assignment) :
  lpSum (λ z, lpSum (λ j, coef L_Z z j * xval a j) (locations N))
    (range 0 num_rain_zones)
  = lpSum (xval a) (locations N).
Proof.
  rewrite lpSum_swap. apply lpSum_ext. intros j Hj%elem_of_locations.
  etrans; [|apply (lpSum_single (λ _, xval a j) num_rain_zones
                     (zone_of num_rain_zones remaining_assignments j))].
  - apply lpSum_ext. intros z Hz%elem_of_range.
    rewrite built_zone_coef by (done || lia). case_decide; lia.
  - exact (zone_of_lt coords_j _ _ built_zones_le_sites remaining_length
             remaining_lt j Hj).
Qed.
End ZoneFacts.

(** X12.  In a feasible assignment of a model whose zone matrix was built
    by lines 53-58 (the drawn vector obeying the contract of
    [np.random.randint]), every rain zone has a selected site assigned to
    it. *)
Theorem rain_zone_has_selected_site (coords_j : list point) (W num_rain_zones : nat)
    (remaining_assignments : list nat) (S_W L_Z V : matrix)
    (a : assignment) (z : nat) :
  length remaining_assignments = (num_locations coords_j - num_rain_zones)%nat →
  Forall (λ z, (z < num_rain_zones)%nat) remaining_assignments →
  build_L_Z coords_j num_rain_zones remaining_assignments = Some L_Z →
  feasible (num_locations coords_j) W num_rain_zones S_W L_Z V a = true →
  (z < num_rain_zones)%nat →
  ∃ j, (j < num_locations coords_j)%nat ∧ xval a j = 1
       ∧ zone_of num_rain_zones remaining_assignments j = z.
Proof.
  intros Hlen Hlt HL (Hx & _ & _ & _ & Hzone & _)%feasible_iff Hz.
  destruct (covered_by_selected _ _ _ _ Hx (Hzone z Hz)) as (j & Hj & Hxj & Hc).
  exists j. split_and!; [done | done |].
  rewrite (built_zone_coef coords_j num_rain_zones remaining_assignments L_Z
             Hlen Hlt HL z j Hz Hj) in Hc.
  by case_decide.
Qed.

Lemma rain_zone_has_selected_site_witness :
  let coords_j := [P 0 0; P 1000 0] in
  ∃ j, (j < num_locations coords_j)%nat
       ∧ xval (Assignment (λ _, 1) (λ _, 1)) j = 1
       ∧ zone_of 1 [0%nat] j = 0%nat.
Proof.
  intros coords_j.
  apply (rain_zone_has_selected_site coords_j 2 1 [0%nat]
           [[1; 0]; [0; 1]] [[1; 1]] [[0; 1]; [1; 0]]).
  - reflexivity.
  - repeat constructor.
  - vm_compute. reflexivity.
  - vm_compute. reflexivity.
  - lia.
Defined.

(** X13.  A feasible assignment of a model whose zone matrix was built by
    lines 53-58 selects at least as many sites as there are rain zones,
    because every site lies in exactly one zone. *)
Theorem feasible_selects_site_per_zone (coords_j : list point)
    (W num_rain_zones : nat) (remaining_assignments : list nat)
    (S_W L_Z V : matrix) (a : assignment) :
  length remaining_assignments = (num_locations coords_j - num_rain_zones)%nat →
  Forall (λ z, (z < num_rain_zones)%nat) remaining_assignments →
  build_L_Z coords_j num_rain_zones remaining_assignments = Some L_Z →
  feasible (num_locations coords_j) W num_rain_zones S_W L_Z V a = true →
  Z.of_nat num_rain_zones ≤ objective (num_locations coords_j) a.
Proof.
  intros Hlen Hlt HL (_ & _ & _ & _ & Hzone & _)%feasible_iff.
  unfold objective.
  rewrite <- (zone_rows_sum coords_j num_rain_zones remaining_assignments L_Z
                Hlen Hlt HL a).
  rewrite <- (Nat.sub_0_r num_rain_zones) at 1.
  rewrite <- (length_range 0 num_rain_zones), <- lpSum_const_one.
  apply lpSum_le. intros z Hz%elem_of_range. apply Hzone. lia.
Qed.

Lemma feasible_selects_site_per_zone_witness :
  Z.of_nat 2
  ≤ objective (num_locations [P 0 0; P 1000 0]) (Assignment (λ _, 1) (λ _, 1)).
Proof.
  apply (feasible_selects_site_per_zone [P 0 0; P 1000 0] 2 2 []
           [[1; 0]; [0; 1]] [[1; 0]; [0; 1]] [[0; 1]; [1; 0]]).
  - reflexivity.
  - constructor.
  - vm_compute. reflexivity.
  - vm_compute. reflexivity.
Defined.

Lemma build_V_coef_one (coords_j : list point) (r : float64) (j k : nat) :
  (j < num_locations coords_j)%nat → (k < num_locations coords_j)%nat →
  1 ≤ coef (build_V coords_j r) j k →
  mat_get (build_V coords_j r) j k = Some 1
  ∧ mat_get (build_V coords_j r) k j = Some 1.
Proof.
  intros Hj Hk. unfold coef. rewrite !build_V_get by done. simpl.
  intros Hc. case_decide as Hjk; [|lia]. split; [done|].
  rewrite decide_True; [done | tauto].
Qed.

(** X14.  In a feasible assignment every selected site has an active link
    to another selected site, and the two are adjacent in the connectivity
    matrix. *)
Theorem selected_site_has_neighbour (coords_j : list point) (comm_link_range : float64)
    (W Z' : nat) (S_W L_Z : matrix) (a : assignment) (j : nat) :
  let N := num_locations coords_j in
  let V := build_V coords_j comm_link_range in
  feasible N W Z' S_W L_Z V a = true →
  (j < N)%nat → xval a j = 1 →
  ∃ k, (k < N)%nat ∧ k ≠ j ∧ xval a k = 1 ∧ mat_get V j k = Some 1
       ∧ (((k < j)%nat ∧ yval a (k, j) = 1) ∨ ((j < k)%nat ∧ yval a (j, k) = 1)).
Proof.
  intros N V Ha Hj Hxj.
  pose proof Ha as (_ & Hy & _ & _ & _ & _ & Hdeg)%feasible_iff.
  specialize (Hdeg j Hj). rewrite Hxj in Hdeg.
  unfold total_links_for in Hdeg.
  rewrite links_to_y_link, links_from_y_link, <- lpSum_add in Hdeg.
  apply lpSum_pos_exists in Hdeg as (k & Hk%elem_of_locations & Hterm).
  exists k.
  destruct (decide (k < j)%nat) as [Hkj|Hkj];
    destruct (decide (j < k)%nat) as [Hjk|Hjk]; try lia.
  - destruct (Hy k j ltac:(lia)) as [H0|H1]; [lia|].
    destruct (feasible_link_endpoints N W Z' S_W L_Z V a Ha k j ltac:(lia) H1)
      as (Hxk & _ & HV).
    apply build_V_coef_one in HV as [_ HV]; [|done|done].
    split_and!; [done | lia | done | done | left; done].
  - destruct (Hy j k ltac:(lia)) as [H0|H1]; [lia|].
    destruct (feasible_link_endpoints N W Z' S_W L_Z V a Ha j k ltac:(lia) H1)
      as (_ & Hxk & HV).
    apply build_V_coef_one in HV as [HV _]; [|done|done].
    split_and!; [done | lia | done | done | right; done].
Qed.

Lemma selected_site_has_neighbour_witness :
  let coords_j := [P 0 0; P 1000 0] in
  let a := Assignment (λ _, 1) (λ _, 1) in
  ∃ k, (k < num_locations coords_j)%nat ∧ k ≠ 0%nat ∧ xval a k = 1
       ∧ mat_get (build_V coords_j (F 1500)) 0 k = Some 1
       ∧ (((k < 0)%nat ∧ yval a (k, 0%nat) = 1)
          ∨ ((0 < k)%nat ∧ yval a (0%nat, k) = 1)).
Proof.
  intros coords_j a.
  apply (selected_site_has_neighbour coords_j (F 1500) 2 1 [[1; 0]; [0; 1]] [[1; 1]] a 0).
  - vm_compute. reflexivity.
  - simpl. lia.
  - reflexivity.
Defined.

(** ** Models without a feasible assignment *)

Lemma objective_le_sites (N W Z' : nat) (S_W L_Z V : matrix) (a : assignment) :
  feasible N W Z' S_W L_Z V a = true → objective N a ≤ Z.of_nat N.
Proof.
  intros (Hx & _)%feasible_iff. unfold objective.
  rewrite <- (Nat.sub_0_r N) at 2.
  rewrite <- (length_range 0 N), <- lpSum_const_one.
  apply lpSum_le. intros j Hj%elem_of_locations. destruct (Hx j Hj); lia.
Qed.

(** X15.  With fewer than two candidate sites the assembled model has no
    feasible assignment, whatever the matrices, and the status is
    [Infeasible]. *)
Theorem fewer_than_two_sites_infeasible (N W Z' : nat) (S_W L_Z V : matrix) :
  (N < 2)%nat →
  (∀ a, feasible N W Z' S_W L_Z V a = false)
  ∧ solve N W Z' S_W L_Z V = (Infeasible, None).
Proof.
  intros HN.
  assert (∀ a, feasible N W Z' S_W L_Z V a = false) as Hnone.
  { intros a. apply not_true_is_false. intros Ha.
    pose proof (feasible_at_least_two _ _ _ _ _ _ _ Ha).
    pose proof (objective_le_sites _ _ _ _ _ _ _ Ha). lia. }
  split; [done | by apply solve_Infeasible].
Qed.

Lemma fewer_than_two_sites_infeasible_witness :
  solve 1 1 1 [[1]] [[1]] [[0]] = (Infeasible, None).
Proof.
  apply (fewer_than_two_sites_infeasible 1 1 1 [[1]] [[1]] [[0]]). lia.
Defined.

(** X16.  Without the repair pass a water area for which no site passes
    the test of line 39 (the computed distance compares at most the sensor
    range) makes the model infeasible: its coverage constraint of line 99
    has only zero coefficients. *)
Theorem uncovered_area_infeasible (coords_j coords_i : list point)
    (water_sensor_range : float64) (Z' : nat) (L_Z V : matrix) (i : nat) :
  let N := num_locations coords_j in
  let W := num_water_areas coords_i in
  (i < W)%nat →
  (∀ j, (j < N)%nat →
        fleb (distance64 (coords_i !!! i) (coords_j !!! j)) water_sensor_range
        = false) →
  ∀ a, feasible N W Z'
         (build_S_W coords_j coords_i water_sensor_range) L_Z V a = false.
Proof.
  intros N W Hi Hout a. apply not_true_is_false.
  intros (_ & _ & _ & Hw & _)%feasible_iff.
  specialize (Hw i Hi). rewrite lpSum_zero in Hw; [lia|].
  intros j Hj%elem_of_locations. unfold coef.
  rewrite build_S_W_get. rewrite decide_True by done. simpl.
  rewrite decide_False; [lia|]. unfold covers. by rewrite Hout.
Qed.

Lemma uncovered_area_infeasible_witness :
  feasible 2 1 1 (build_S_W [P 0 0; P 1000 0] [P 500 500] (F 10))
    [[1; 1]] [[0; 1]; [1; 0]] (Assignment (λ _, 1) (λ _, 1)) = false.
Proof.
  apply (uncovered_area_infeasible [P 0 0; P 1000 0] [P 500 500] (F 10) 1
           [[1; 1]] [[0; 1]; [1; 0]] 0).
  - simpl. lia.
  - intros j Hj. simpl in Hj.
    destruct j as [|[|j]]; [| |lia]; vm_compute; reflexivity.
Defined.

Lemma repaired_row_has_one (coords_j coords_i : list point)
    (S_W0 S_W : matrix) (i : nat) :
  repair coords_j coords_i S_W0 = Some S_W →
  has_shape (num_water_areas coords_i) (num_locations coords_j) S_W0 →
  binary_matrix S_W0 →
  (i < num_water_areas coords_i)%nat →
  ∃ j, (j < num_locations coords_j)%nat ∧ mat_get S_W i j = Some 1.
Proof.
  intros Hrep Hshape Hbin Hi.
  pose proof Hrep as (_ & _ & Hlt)%repair_inv.
  destruct (Hlt i Hi) as (row & row' & Hrow & Hvec & Hrow').
  destruct (has_shape_row _ _ i S_W0 Hshape Hi) as (row0 & Hrow0 & Hlen).
  rewrite Hrow in Hrow0. injection Hrow0 as <-.
  assert (Forall (λ v, v = 0 ∨ v = 1) row) as H01.
  { unfold binary_matrix in Hbin. rewrite Forall_lookup in Hbin. by eapply Hbin. }
  unfold mat_get. rewrite Hrow'. simpl.
  apply repair_vec_cases in Hvec as [[Hsum ->]|(_ & c & _ & _ & Hc & ->)].
  - assert (¬ Forall (λ v, v = 0) row) as Hnz.
    { rewrite <- sumZ_zero_iff; [done|].
      eapply Forall_impl; [exact H01|]. simpl. lia. }
    apply not_Forall_Exists in Hnz; [|apply _].
    apply Exists_exists in Hnz as (v & Hv & Hv0).
    apply list_elem_of_lookup in Hv as [j Hj].
    exists j. split; [rewrite <- Hlen; by eapply lookup_lt_Some|].
    rewrite Forall_lookup in H01. destruct (H01 j v Hj); [done | by subst].
  - exists c. split; [by rewrite <- Hlen | by apply list_lookup_insert_eq].
Qed.

(** With a turbine at every site, the coverage sums of lines 99 and 103
    are at least 1 after the pre-processing. *)
Lemma all_sites_coverage_sums (coords_j coords_i : list point)
    (water_sensor_range comm_link_range : float64) (num_rain_zones : nat)
    (remaining_assignments : list nat) (S_W L_Z V : matrix) (a : assignment) :
  let N := num_locations coords_j in
  length remaining_assignments = (N - num_rain_zones)%nat →
  Forall (λ z, (z < num_rain_zones)%nat) remaining_assignments →
  parameter_matrices coords_j coords_i water_sensor_range comm_link_range
    num_rain_zones remaining_assignments = Some (S_W, L_Z, V) →
  (∀ j, (j < N)%nat → xval a j = 1) →
  (∀ i, (i < num_water_areas coords_i)%nat →
        1 ≤ lpSum (λ j, coef S_W i j * xval a j) (locations N))
  ∧ (∀ z, (z < num_rain_zones)%nat →
          1 ≤ lpSum (λ j, coef L_Z z j * xval a j) (locations N)).
Proof.
  intros N Hlen Hlt Hpm Hall.
  pose proof Hpm as (HS & HL & _)%parameter_matrices_inv.
  destruct (parameter_matrices_shapes_aux _ _ _ _ _ _ _ _ _ Hpm)
    as (_ & _ & HSb & HLb).
  assert (∀ (m : matrix) (i j : nat),
            binary_matrix m → (j < N)%nat → coef m i j = 1 →
            1 ≤ lpSum (λ j, coef m i j * xval a j) (locations N)) as Hcov.
  { intros m i j Hm Hj Hc.
    rewrite (lpSum_ext _ (λ j, coef m i j))
      by (intros k Hk%elem_of_locations; rewrite Hall by done; lia).
    rewrite <- Hc. apply (lpSum_ge_term (λ j, coef m i j)).
    - intros k _. destruct (binary_matrix_coef m i k Hm); lia.
    - by apply elem_of_locations. }
  split.
  - intros i Hi.
    destruct (repaired_row_has_one _ _ _ _ i HS
                (build_S_W_shape _ _ _) (build_S_W_binary _ _ _) Hi)
      as (j & Hj & Hone).
    apply (Hcov S_W i j); [done | done |]. unfold coef. by rewrite Hone.
  - intros z Hz.
    assert (num_rain_zones ≤ N)%nat
      by (eapply built_zones_le_sites; eassumption).
    apply (Hcov L_Z z z); [done | fold N; lia |].
    rewrite (built_zone_coef coords_j num_rain_zones remaining_assignments L_Z
               Hlen Hlt HL) by (done || lia).
    rewrite decide_True; [done|]. unfold zone_of. by rewrite decide_True.
Qed.

(** X17.  After the pre-processing of lines 35-58, deploying a turbine at
    every site satisfies every water-coverage and every rain-zone
    constraint: coverage alone never makes the model infeasible. *)
Theorem all_sites_satisfy_coverage (coords_j coords_i : list point)
    (water_sensor_range comm_link_range : float64) (num_rain_zones : nat)
    (remaining_assignments : list nat) (S_W L_Z V : matrix) (a : assignment) :
  let N := num_locations coords_j in
  length remaining_assignments = (N - num_rain_zones)%nat →
  Forall (λ z, (z < num_rain_zones)%nat) remaining_assignments →
  parameter_matrices coords_j coords_i water_sensor_range comm_link_range
    num_rain_zones remaining_assignments = Some (S_W, L_Z, V) →
  (∀ j, (j < N)%nat → xval a j = 1) →
  (∀ i, (i < num_water_areas coords_i)%nat →
        holds (c_WaterCoverage N S_W i) a = true)
  ∧ (∀ z, (z < num_rain_zones)%nat → holds (c_RainZone N L_Z z) a = true).
Proof.
  intros N Hlen Hlt Hpm Hall.
  destruct (all_sites_coverage_sums _ _ _ _ _ _ _ _ _ a Hlen Hlt Hpm Hall)
    as [Hw Hz].
  split; intros i Hi; simpl; apply Z.leb_le; [by apply Hw | by apply Hz].
Qed.

Lemma all_sites_satisfy_coverage_witness :
  let coords_j := [P 0 0; P 1000 0] in
  let a := Assignment (λ _, 1) (λ _, 0) in
  (∀ i, (i < num_water_areas [P 500 500])%nat →
        holds (c_WaterCoverage (num_locations coords_j) [[1; 0]] i) a = true)
  ∧ (∀ z, (z < 1)%nat →
          holds (c_RainZone (num_locations coords_j) [[1; 1]] z) a = true).
Proof.
  intros coords_j a.
  apply (all_sites_satisfy_coverage coords_j [P 500 500] (F 10) (F 1500) 1 [0%nat]
           [[1; 0]] [[1; 1]] [[0; 1]; [1; 0]] a).
  - reflexivity.
  - repeat constructor.
  - vm_compute. reflexivity.
  - intros j _. reflexivity.
Defined.

(** ** Growing and negative ranges *)

(** X18.  Enlarging the sensor range never removes coverage: an entry 1 of
    the coverage matrix of lines 35-40 stays 1 for every larger range. *)
Theorem coverage_monotone (coords_j coords_i : list point) (r r' : float64) (i j : nat) :
  fleb r r' = true →
  mat_get (build_S_W coords_j coords_i r) i j = Some 1 →
  mat_get (build_S_W coords_j coords_i r') i j = Some 1.
Proof.
  intros Hr. rewrite !build_S_W_get. case_decide as Hij; [|done].
  intros Hc. f_equal. rewrite decide_True; [done|].
  unfold covers in *. case_decide as Hcov; [|done].
  by eapply fleb_trans.
Qed.

Lemma coverage_monotone_witness :
  mat_get (build_S_W [P 0 0; P 3 4] [P 0 1] (F 5)) 0 0 = Some 1.
Proof.
  apply (coverage_monotone [P 0 0; P 3 4] [P 0 1] (F 2) (F 5) 0 0).
  - vm_compute. reflexivity.
  - vm_compute. reflexivity.
Defined.

(** X19.  Enlarging the communication range never removes adjacency: an
    entry 1 of the connectivity matrix of lines 62-68 stays 1 for every
    larger range. *)
Theorem adjacency_monotone (coords_j : list point) (r r' : float64) (j k : nat) :
  fleb r r' = true →
  mat_get (build_V coords_j r) j k = Some 1 →
  mat_get (build_V coords_j r') j k = Some 1.
Proof.
  intros Hr.
  destruct (decide (j < num_locations coords_j ∧ k < num_locations coords_j)%nat)
    as [[Hj Hk]|Hn]; [|by rewrite build_V_get_None].
  rewrite !build_V_get by done.
  intros Hc. f_equal. case_decide as Hadj; [|done].
  rewrite decide_True; [done|]. unfold within_comm_range in *.
  destruct Hadj as [[? Hw]|[? Hw]]; [left | right];
    (split; [done | by eapply fleb_trans]).
Qed.

Lemma adjacency_monotone_witness :
  mat_get (build_V [P 0 0; P 3 4] (F 10)) 1 0 = Some 1.
Proof.
  apply (adjacency_monotone [P 0 0; P 3 4] (F 5) (F 10) 1 0).
  - vm_compute. reflexivity.
  - vm_compute. reflexivity.
Defined.

(** X20.  With a negative communication range no pair of sites passes the
    test of line 66, so the model has no feasible assignment and the
    status is [Infeasible]. *)
Theorem negative_comm_range_infeasible (coords_j : list point)
    (comm_link_range : float64) (W Z' : nat) (S_W L_Z : matrix) :
  let N := num_locations coords_j in
  let V := build_V coords_j comm_link_range in
  fltb comm_link_range (F 0) = true →
  (∀ a, feasible N W Z' S_W L_Z V a = false)
  ∧ solve N W Z' S_W L_Z V = (Infeasible, None).
Proof.
  intros N V Hr.
  assert (∀ a, feasible N W Z' S_W L_Z V a = false) as Hnone.
  { apply no_links_infeasible. intros j k Hjk. unfold coef, V.
    rewrite build_V_get by (fold N; lia). simpl.
    rewrite decide_False; [done|]. unfold within_comm_range, distance64.
    rewrite !fleb_fsqrt_negative by done. intros [[_ ?]|[_ ?]]; done. }
  split; [done | by apply solve_Infeasible].
Qed.

Lemma negative_comm_range_infeasible_witness :
  solve 2 2 1 [[1; 0]; [0; 1]] [[1; 1]] (build_V [P 0 0; P 1000 0] (F (-1)))
  = (Infeasible, None).
Proof.
  apply (negative_comm_range_infeasible [P 0 0; P 1000 0] (F (-1)) 2 1
           [[1; 0]; [0; 1]] [[1; 1]]).
  vm_compute. reflexivity.
Defined.

(** ** Consistency of the report *)

Lemma count_ones {A : Type} (f : A → Z) (l : list A) :
  (∀ a, a ∈ l → f a = 0 ∨ f a = 1) →
  Z.of_nat (length (filter (λ a, f a = 1) l)) = lpSum f l.
Proof.
  induction l as [|a l IH]; intros Hbin; [done|].
  rewrite filter_cons, lpSum_cons.
  specialize (IH ltac:(intros b Hb; apply Hbin; by right)).
  destruct (Hbin a ltac:(by left)) as [H0|H1]; case_decide; simpl length; lia.
Qed.

(** X21.  When the notebook ends with status [Optimal], the printed
    figures agree with each other: the number of active links is the
    number of turbines minus one, there are at least two turbines and at
    most as many as candidate sites, the selected sites are distinct valid
    indices, and every active link joins two selected sites. *)
Theorem report_consistent (coords_j coords_i : list point)
    (water_sensor_range comm_link_range : float64) (num_rain_zones : nat)
    (remaining_assignments : list nat) (C_capex_per_turbine C_opex_per_turbine T : Z)
    (o : outcome) :
  run coords_j coords_i water_sensor_range comm_link_range num_rain_zones
    remaining_assignments C_capex_per_turbine C_opex_per_turbine T = Some o →
  out_status o = Optimal →
  ∃ rep,
    out_report o = Some rep
    ∧ Z.of_nat (length (active_links rep)) = turbine_count rep - 1
    ∧ 2 ≤ turbine_count rep ≤ Z.of_nat (num_locations coords_j)
    ∧ NoDup (selected_sites rep)
    ∧ (∀ j, j ∈ selected_sites rep → (j < num_locations coords_j)%nat)
    ∧ (∀ j k, (j, k) ∈ active_links rep →
              (j < k)%nat ∧ j ∈ selected_sites rep ∧ k ∈ selected_sites rep).
Proof.
  intros (S_W & L_Z & V & _ & Ho)%run_inv Hst. cbv zeta in Ho. subst o.
  simpl in Hst.
  destruct (solve (num_locations coords_j) (num_water_areas coords_i)
              num_rain_zones S_W L_Z V) as [st sol] eqn:Hsolve.
  simpl in Hst. subst st.
  apply solve_Optimal in Hsolve as (a & -> & Ha & _).
  set (N := num_locations coords_j) in *.
  pose proof Ha as (Hx & Hy & _)%feasible_iff.
  pose proof (feasible_tree_size _ _ _ _ _ _ _ Ha) as Htree.
  pose proof (feasible_at_least_two _ _ _ _ _ _ _ Ha) as Htwo.
  pose proof (objective_le_sites _ _ _ _ _ _ _ Ha) as Hmax.
  unfold objective in Htwo, Hmax.
  assert (Z.of_nat (length (filter (λ j, xval a j = 1) (locations N)))
          = lpSum (xval a) (locations N)) as Hcount.
  { apply count_ones. intros j Hj%elem_of_locations. by apply Hx. }
  assert (Z.of_nat (length (filter (λ l, yval a l = 1) (links N)))
          = lpSum (yval a) (links N)) as Hlinks.
  { apply count_ones. intros [j k] Hjk%elem_of_links. by apply Hy. }
  eexists. simpl. split; [reflexivity|]. simpl. split_and!.
  - lia.
  - lia.
  - lia.
  - apply NoDup_filter, NoDup_seq.
  - intros j [_ Hj%elem_of_locations]%list_elem_of_filter. done.
  - intros j k [Hyjk Hjk%elem_of_links]%list_elem_of_filter.
    destruct (feasible_link_endpoints _ _ _ _ _ _ _ Ha j k Hjk Hyjk)
      as (Hxj & Hxk & _).
    split_and!; [lia | |]; apply list_elem_of_filter;
      (split; [done | apply elem_of_locations; lia]).
Qed.

Lemma report_consistent_witness :
  ∃ rep,
    Some (Report [0; 1]%nat 2 1600000 2400000 25600000 [(0, 1)%nat]) = Some rep
    ∧ Z.of_nat (length (active_links rep)) = turbine_count rep - 1
    ∧ 2 ≤ turbine_count rep ≤ Z.of_nat (num_locations [P 0 0; P 1000 0])
    ∧ NoDup (selected_sites rep)
    ∧ (∀ j, j ∈ selected_sites rep
            → (j < num_locations [P 0 0; P 1000 0])%nat)
    ∧ (∀ j k, (j, k) ∈ active_links rep →
              (j < k)%nat ∧ j ∈ selected_sites rep ∧ k ∈ selected_sites rep).
Proof.
  apply (report_consistent [P 0 0; P 1000 0] [P 0 0; P 1000 0] (F 500) (F 1500) 1
           [0%nat] 800000 1200000 10
           (Outcome Optimal
              (Some (Report [0; 1]%nat 2 1600000 2400000 25600000 [(0, 1)%nat])))).
  - vm_compute. reflexivity.
  - reflexivity.
Defined.

(** ** A sufficient condition for an [Optimal] status *)

Lemma lpSum_nonneg {A : Type} (f : A → Z) (l : list A) :
  (∀ a, a ∈ l → 0 ≤ f a) → 0 ≤ lpSum f l.
Proof.
  intros Hnn. rewrite <- (lpSum_zero (λ _, 0) l) by done. by apply lpSum_le.
Qed.

Section Star.
Variable N : nat.
Hypothesis two_sites : (2 ≤ N)%nat.

Lemma star_links : lpSum (yval star) (links N) = Z.of_nat N - 1.
Proof.
  rewrite lpSum_links. simpl.
  rewrite (lpSum_ext _
             (λ j, if decide (j = 0%nat)
                   then lpSum (λ k, if decide (j < k)%nat then 1 else 0)
                          (locations N)
                   else 0)).
  - rewrite (lpSum_single
               (λ j, lpSum (λ k, if decide (j < k)%nat then 1 else 0)
                       (locations N)) N 0) by lia.
    unfold locations. rewrite count_above. lia.
  - intros j _. case_decide as Hj.
    + apply lpSum_ext. intros k _. by case_decide.
    + apply lpSum_zero. intros k _. by case_decide.
Qed.

Lemma star_sites : lpSum (xval star) (locations N) = Z.of_nat N.
Proof.
  simpl. rewrite lpSum_const_one. unfold locations.
  rewrite length_range. lia.
Qed.

Lemma star_degree (j : nat) : (j < N)%nat → 1 ≤ total_links_for N star j.
Proof.
  intros Hj. unfold total_links_for, links_to, links_from.
  assert (∀ (g : nat → nat * nat) (l : list nat),
            0 ≤ lpSum (λ k, yval star (g k)) l) as Hnn.
  { intros g l. apply lpSum_nonneg. intros k _. simpl. case_decide; lia. }
  destruct (decide (j = 0%nat)) as [->|Hne].
  - pose proof (Hnn (λ k, (k, 0%nat)) (filter (λ k, (k < 0)%nat) (locations N))).
    assert (yval star (0%nat, 1%nat)
            ≤ lpSum (λ k, yval star (0%nat, k))
                (filter (λ k, (0 < k)%nat) (locations N))) as Hone.
    { apply (lpSum_ge_term (λ k, yval star (0%nat, k))).
      - intros k _. simpl. lia.
      - apply list_elem_of_filter. split; [lia | apply elem_of_locations; lia]. }
    simpl in *. lia.
  - pose proof (Hnn (λ k, (j, k)) (filter (λ k, (j < k)%nat) (locations N))).
    assert (yval star (0%nat, j)
            ≤ lpSum (λ k, yval star (k, j))
                (filter (λ k, (k < j)%nat) (locations N))) as Hone.
    { apply (lpSum_ge_term (λ k, yval star (k, j))).
      - intros k _. simpl. case_decide; lia.
      - apply list_elem_of_filter. split; [lia | apply elem_of_locations; lia]. }
    simpl in *. lia.
Qed.
End Star.

(** X22.  When the pre-processing succeeds, there are at least two sites
    and every other site passes the test of line 66 with site 0 (the
    computed distance compares at most the communication range), the
    deployment of all sites linked to site 0 is feasible, so the model has
    a solution and the status is [Optimal]. *)
Theorem hub_site_gives_optimal (coords_j coords_i : list point)
    (water_sensor_range comm_link_range : float64) (num_rain_zones : nat)
    (remaining_assignments : list nat) (S_W L_Z V : matrix) :
  let N := num_locations coords_j in
  let W := num_water_areas coords_i in
  length remaining_assignments = (N - num_rain_zones)%nat →
  Forall (λ z, (z < num_rain_zones)%nat) remaining_assignments →
  parameter_matrices coords_j coords_i water_sensor_range comm_link_range
    num_rain_zones remaining_assignments = Some (S_W, L_Z, V) →
  (2 ≤ N)%nat →
  (∀ k, (0 < k < N)%nat →
        fleb (distance64 (coords_j !!! 0%nat) (coords_j !!! k)) comm_link_range
        = true) →
  feasible N W num_rain_zones S_W L_Z V star = true
  ∧ (solve N W num_rain_zones S_W L_Z V).1 = Optimal.
Proof.
  intros N W Hlen Hlt Hpm HN Hhub.
  assert (feasible N W num_rain_zones S_W L_Z V star = true) as Hfeas.
  { destruct (all_sites_coverage_sums _ _ _ _ _ _ _ _ _ star Hlen Hlt Hpm
                ltac:(done)) as [Hw Hz].
    apply parameter_matrices_inv in Hpm as (_ & _ & ->).
    apply feasible_iff. split_and!.
    - intros j _. by right.
    - intros j k _. simpl. case_decide; auto.
    - rewrite star_links, star_sites by done. lia.
    - done.
    - done.
    - intros j k Hjk. simpl. split; [case_decide; lia|].
      case_decide as Hj0.
      + subst j. unfold coef. rewrite build_V_get by (fold N; lia). simpl.
        rewrite decide_True; [done|]. left. split; [lia | apply Hhub; lia].
      + destruct (build_V_coef_01 coords_j comm_link_range j k); lia.
    - intros j Hj. simpl xval. by apply star_degree. }
  split; [done | by eapply solve_feasible_Optimal].
Qed.

Lemma hub_site_gives_optimal_witness :
  feasible 2 2 1 [[1; 0]; [0; 1]] [[1; 1]] [[0; 1]; [1; 0]] star = true
  ∧ (solve 2 2 1 [[1; 0]; [0; 1]] [[1; 1]] [[0; 1]; [1; 0]]).1 = Optimal.
Proof.
  apply (hub_site_gives_optimal [P 0 0; P 1000 0] [P 0 0; P 1000 0]
           (F 500) (F 1500) 1 [0%nat]).
  - reflexivity.
  - repeat constructor.
  - vm_compute. reflexivity.
  - simpl. lia.
  - intros k Hk. simpl in Hk. assert (k = 1%nat) as -> by lia.
    vm_compute. reflexivity.
Defined.
